(** * Verification of the web scraper (main.py)

    A shallow embedding of [WebScraper] and of the library behaviour it
    relies on, followed by the properties of the fetch / extract / persist /
    export pipeline.

    Conventions.
    - Python [str] is [string], the text in UTF-8 (the encoding main.py
      gives to the files it writes); [Optional[str]] is [option string]; a
      Python [int] is [Z].
    - An exception that leaves a method is a value of [Exn] on the left of a
      sum; [None] returned by a method is [None].
    - Effects (requests sent, records logged, rows written) are threaded
      explicitly through a [World].
    - Library code that main.py calls (urllib.robotparser, asyncio.gather,
      the connector of aiohttp's session, BeautifulSoup's [find],
      [str.strip], sqlite's INSERT OR REPLACE, the csv and json modules) is
      modelled next to its call site, from the library's own source or its
      documented behaviour, restricted to the paths main.py exercises. *)

From Stdlib Require Import ZArith List String Ascii Bool Lia.
From Stdlib Require Import DecimalString DecimalZ DecimalPos.
From stdpp Require Import base list strings gmap.
Import ListNotations.
Set Warnings "-register-all".

(* ===================================================================== *)
(** * Part I: the program                                                 *)
(* ===================================================================== *)

(** ** Data model (main.py, lines 17-21) *)

Record ScrapedItem := mkItem {
  title : string;
  description : string;
  url : string
}.

(** Exceptions that can leave the methods modelled below. *)
Inductive Exn :=
| URLErrorExn                (* urllib.error.URLError: no HTTP answer at all *)
| UnicodeDecodeError         (* bytes.decode("utf-8") on ill-formed input *)
| KeyError (key : string).   (* Tag.__getitem__ on an absent attribute *)

Inductive LogRecord :=
| LogWarning (msg : string)
| LogError (msg : string).

(** ** BeautifulSoup objects and [extract_data] (lines 66-75) *)
Module Soup.

(** The parse tree: tags with a name, an attribute dict and children, and
    text nodes. *)
Inductive PageElement :=
| Tag (name : string) (attrs : gmap string string) (contents : list PageElement)
| NavigableString (s : string).

(** A [BeautifulSoup] object is the root; its children are the top-level
    elements of the document. *)
Definition BeautifulSoup := list PageElement.

(** [find]: the first tag, in document order over all descendants, that
    satisfies the criteria; [None] when there is none. *)
Fixpoint find_in (p : string -> gmap string string -> bool)
         (e : PageElement) : option PageElement :=
  match e with
  | NavigableString _ => None
  | Tag n a cs =>
      if p n a then Some e
      else (fix scan (l : list PageElement) : option PageElement :=
              match l with
              | [] => None
              | c :: l' =>
                  match find_in p c with
                  | Some r => Some r
                  | None => scan l'
                  end
              end) cs
  end.

Fixpoint find (p : string -> gmap string string -> bool)
         (soup : BeautifulSoup) : option PageElement :=
  match soup with
  | [] => None
  | c :: l' =>
      match find_in p c with
      | Some r => Some r
      | None => find p l'
      end
  end.

(** The two criteria main.py uses: [find('h1')] and
    [find('meta', attrs={'name': 'description'})]. *)
Definition is_h1 (n : string) (_ : gmap string string) : bool :=
  String.eqb n "h1".

Definition is_meta_description (n : string) (a : gmap string string) : bool :=
  String.eqb n "meta" &&
  match a !! "name" with
  | Some v => String.eqb v "description"
  | None => false
  end.

(** [Tag.text]: all text nodes below the element, concatenated. *)
Fixpoint get_text (e : PageElement) : string :=
  match e with
  | NavigableString s => s
  | Tag _ _ cs =>
      (fix cat (l : list PageElement) : string :=
         match l with
         | [] => EmptyString
         | c :: l' => get_text c +:+ cat l'
         end) cs
  end.

(** [str.strip()] removes white space at both ends. White space is what
    [Py_UNICODE_ISSPACE] says of a code point; these are the code points
    it holds for (tab .. carriage return, the separators 28..31, space,
    next line, no-break space, and the space separators of Unicode). *)
Definition whitespace : list Z :=
  [9; 10; 11; 12; 13; 28; 29; 30; 31; 32; 133; 160; 5760;
   8192; 8193; 8194; 8195; 8196; 8197; 8198; 8199; 8200; 8201; 8202;
   8232; 8233; 8239; 8287; 12288]%Z.

(** A text is held as its UTF-8 bytes; [utf8 cp] is the character with
    code point [cp], for [cp] below 0x10000. *)
Definition byte (n : Z) : ascii := ascii_of_N (Z.to_N n).

Definition utf8 (cp : Z) : string :=
  if (cp <? 128)%Z then String (byte cp) EmptyString
  else if (cp <? 2048)%Z then
    String (byte (192 + cp / 64)) (String (byte (128 + cp mod 64)) EmptyString)
  else
    String (byte (224 + cp / 4096))
      (String (byte (128 + (cp / 64) mod 64))
         (String (byte (128 + cp mod 64)) EmptyString)).

Definition spaces : list string := utf8 <$> whitespace.

(** [s] without [p] in front, and without [p] at its end. *)
Fixpoint without_prefix (p s : string) : option string :=
  match p, s with
  | EmptyString, _ => Some s
  | String a p', String b s' =>
      if Ascii.eqb a b then without_prefix p' s' else None
  | String _ _, EmptyString => None
  end.

Fixpoint without_suffix (p s : string) : option string :=
  if String.eqb s p then Some EmptyString
  else match s with
       | String c s' =>
           match without_suffix p s' with
           | Some r => Some (String c r)
           | None => None
           end
       | EmptyString => None
       end.

Fixpoint first_of (f : string -> option string) (l : list string) : option string :=
  match l with
  | [] => None
  | p :: l' =>
      match f p with
      | Some r => Some r
      | None => first_of f l'
      end
  end.

(** The text after its first character when that is white space, and
    before its last character when that is white space. In UTF-8 no
    character is the beginning or the end of another, so at most one
    entry of [spaces] fits. *)
Definition after_space (s : string) : option string :=
  first_of (fun p => without_prefix p s) spaces.

Definition before_space (s : string) : option string :=
  first_of (fun p => without_suffix p s) spaces.

(** The two scans of [do_strip], from the left and then from the right;
    [n] bounds the number of characters a scan can pass. *)
Fixpoint lstrip_upto (n : nat) (s : string) : string :=
  match n with
  | 0 => s
  | S n' =>
      match after_space s with
      | Some r => lstrip_upto n' r
      | None => s
      end
  end.

Fixpoint rstrip_upto (n : nat) (s : string) : string :=
  match n with
  | 0 => s
  | S n' =>
      match before_space s with
      | Some r => rstrip_upto n' r
      | None => s
      end
  end.

Definition lstrip (s : string) : string := lstrip_upto (String.length s) s.

Definition rstrip (s : string) : string := rstrip_upto (String.length s) s.

Definition strip (s : string) : string := rstrip (lstrip s).

(** [Tag.__getitem__]: [self.attrs[key]], a [KeyError] when absent. *)
Definition getitem (e : PageElement) (key : string) : Exn + string :=
  match e with
  | Tag _ a _ =>
      match a !! key with
      | Some v => inr v
      | None => inl (KeyError key)
      end
  | NavigableString _ => inl (KeyError key)
  end.

(** [extract_data] (lines 69-75). A [Tag] is always truthy
    ([Tag.__bool__] returns [True]), so both conditionals test for
    [None]. *)
Definition extract_title (soup : BeautifulSoup) : string :=
  match find is_h1 soup with
  | Some h1 => strip (get_text h1)
  | None => EmptyString
  end.

Definition extract_description (soup : BeautifulSoup) : Exn + string :=
  match find is_meta_description soup with
  | Some meta => getitem meta "content"
  | None => inr EmptyString
  end.

Definition extract_data (soup : BeautifulSoup) (u : string) : Exn + ScrapedItem :=
  let t := extract_title soup in
  match extract_description soup with
  | inl e => inl e
  | inr d => inr (mkItem t d u)
  end.

End Soup.

(** ** The sqlite table and [_save_to_database] (lines 41-51, 105-111) *)
Module Store.

(** A row of [scraped_items]: [id INTEGER PRIMARY KEY AUTOINCREMENT],
    [title TEXT], [description TEXT], [url TEXT UNIQUE]. *)
Record Row := mkRow {
  row_id : Z;
  row_title : string;
  row_description : string;
  row_url : string
}.

(** The table: its rows in insertion order and the AUTOINCREMENT counter
    (the largest rowid handed out so far). *)
Record Table := mkTable {
  rows : list Row;
  sequence : Z
}.

Definition empty_table : Table := mkTable [] 0.

(** [CREATE TABLE IF NOT EXISTS]: keeps a table that is already in the
    database file, creates an empty one otherwise. *)
Definition _setup_database (file : option Table) : Table :=
  match file with
  | Some t => t
  | None => empty_table
  end.

Definition max_rowid (l : list Row) : Z :=
  foldr (fun r m => Z.max (row_id r) m) 0%Z l.

(** Row ids are signed 64-bit integers. With AUTOINCREMENT an id is never
    used twice: the next one is the largest that ever existed plus one,
    and once [rowid_max] has been handed out every INSERT fails
    (SQLITE_FULL). [next_rowid] is the id sqlite picks while the largest
    id is below [rowid_max]; the failure beyond it is not modelled, and
    the statements about ids below carry that bound. *)
Definition rowid_max : Z := 9223372036854775807.

Definition next_rowid (t : Table) : Z :=
  (Z.max (sequence t) (max_rowid (rows t)) + 1)%Z.

(** [INSERT OR REPLACE INTO scraped_items (title, description, url)]:
    the rows that would violate the UNIQUE constraint on [url] are deleted,
    then the new row is inserted under a fresh rowid. *)
Definition insert_or_replace (t d u : string) (tb : Table) : Table :=
  let kept := filter (fun r => row_url r ≠ u) (rows tb) in
  let id := next_rowid tb in
  mkTable (kept ++ [mkRow id t d u]) id.

Definition _save_to_database (item : ScrapedItem) (tb : Table) : Table :=
  insert_or_replace (title item) (description item) (url item) tb.

(** [SELECT title, description FROM scraped_items WHERE url = ?]. *)
Definition select_by_url (u : string) (tb : Table) : list (string * string) :=
  (fun r => (row_title r, row_description r)) <$>
    filter (fun r => row_url r = u) (rows tb).

Definition urls_of (tb : Table) : list string := row_url <$> rows tb.

(** The UNIQUE constraint on [url]. *)
Definition unique_urls (tb : Table) : Prop := NoDup (urls_of tb).

End Store.

(** ** urllib.robotparser as used by [__init__] and the fetchers *)
Module Robots.

(** What [urllib.request.urlopen(self.url)] does: it raises [URLError]
    (no answer), raises [HTTPError] (an answer with an error status), or
    yields the document, whose bytes decode as UTF-8 ([Some]) or not
    ([None]). *)
Inductive urlopen_result :=
| URLError
| HTTPError (code : Z)
| Document (text : option string).

(** The parser object. [entries] stands for the parsed rule groups
    ([self.entries] and [self.default_entry]) through the decision they
    induce: user agent -> url -> allowed. [last_checked] is whether the
    time stamp has been set. *)
Record RobotFileParser := mkParser {
  disallow_all : bool;
  allow_all : bool;
  last_checked : bool;
  entries : string -> string -> bool
}.

(** [RobotFileParser()]: no flag set, no entry; with no entry every agent
    is granted access by the final [return True] of [can_fetch]. *)
Definition new : RobotFileParser :=
  mkParser false false false (fun _ _ => true).

(** [parse(lines)]: stamps the time ([self.modified()]) and records the
    rule groups; it ignores lines it does not understand and never
    raises. [grammar] is the robots-exclusion matching of the library. *)
Definition parse (grammar : string -> string -> string -> bool)
           (text : string) (p : RobotFileParser) : RobotFileParser :=
  mkParser (disallow_all p) (allow_all p) true (grammar text).

(** [read()]:
<<
    try: f = urllib.request.urlopen(self.url)
    except urllib.error.HTTPError as err:
        if err.code in (401, 403): self.disallow_all = True
        elif err.code >= 400 and err.code < 500: self.allow_all = True
    else:
        raw = f.read(); self.parse(raw.decode("utf-8").splitlines())
>>
    A [URLError] that is not an [HTTPError] is not caught. *)
Definition read (grammar : string -> string -> string -> bool)
           (r : urlopen_result) (p : RobotFileParser) : Exn + RobotFileParser :=
  match r with
  | URLError => inl URLErrorExn
  | HTTPError code =>
      if ((code =? 401) || (code =? 403))%Z then
        inr (mkParser true (allow_all p) (last_checked p) (entries p))
      else if ((400 <=? code) && (code <? 500))%Z then
        inr (mkParser (disallow_all p) true (last_checked p) (entries p))
      else inr p
  | Document None => inl UnicodeDecodeError
  | Document (Some text) => inr (parse grammar text p)
  end.

(** [can_fetch(useragent, url)]. *)
Definition can_fetch (p : RobotFileParser) (useragent u : string) : bool :=
  if disallow_all p then false
  else if allow_all p then true
  else if negb (last_checked p) then false
  else entries p useragent u.

End Robots.

(** ** The environment of a run *)

(** What the server does with a page request: an HTTP response (any status)
    with its body text, or a transport failure that aiohttp reports as a
    [ClientError] / requests as a [RequestException]. An answer whose body
    does not decode, and a failure that is no [ClientError] (a timeout),
    make the coroutine raise instead; they are not among these outcomes,
    and the statements about [gather] and [async_scrape] below speak of
    the runs in which every request has one of these two. *)
Inductive Outcome :=
| HttpResponse (status : Z) (text : string)
| ClientError (msg : string).

Record Env := mkEnv {
  robots_txt : Robots.urlopen_result;            (* GET {base}/robots.txt *)
  grammar : string -> string -> string -> bool;  (* robots.txt matching *)
  net : string -> Outcome;                       (* GET of a page url *)
  html_parser : string -> Soup.BeautifulSoup;    (* BeautifulSoup(html, 'html.parser') *)
  db_file : option Store.Table;                  (* scraped_data.db before the run *)
  reason : string -> string;                     (* reason phrase of the answer to a page url *)
  response_url : string -> string                (* [response.url] of that answer *)
}.

(** The observable state a run changes. *)
Record World := mkWorld {
  requests : list string;      (* urls given to [session.get], oldest first, one per call *)
  log : list LogRecord;        (* records emitted, oldest first *)
  database : Store.Table
}.

Definition send_request (u : string) (w : World) : World :=
  mkWorld (requests w ++ [u]) (log w) (database w).

Definition emit (r : LogRecord) (w : World) : World :=
  mkWorld (requests w) (log w ++ [r]) (database w).

Definition save (item : ScrapedItem) (w : World) : World :=
  mkWorld (requests w) (log w) (Store._save_to_database item (database w)).

(** ** [WebScraper] *)

Record WebScraper := mkScraper {
  base_url : string;
  robot_parser : Robots.RobotFileParser
}.

(** [__init__] (lines 24-35): the robots.txt document is read before the
    database is opened; an exception of [read()] leaves the constructor. *)
Definition __init__ (E : Env) (base : string) : Exn + (WebScraper * World) :=
  match Robots.read (grammar E) (robots_txt E) Robots.new with
  | inl e => inl e
  | inr p => inr (mkScraper base p, mkWorld [] [] (Store._setup_database (db_file E)))
  end.

(** [parse_page] (lines 66-67). *)
Definition parse_page (E : Env) (html : string) : Soup.BeautifulSoup :=
  html_parser E html.

Definition denied_msg (u : string) : string :=
  "Robots.txt disallows scraping: " +:+ u.

Definition error_msg (u e : string) : string :=
  "Error fetching " +:+ u +:+ ": " +:+ e.

(** [str(n)] for a Python int. *)
Definition str (n : Z) : string := NilZero.string_of_int (Z.to_int n).

(** [requests.Response.raise_for_status]: raises for 4xx and 5xx. *)
Definition raise_for_status (status : Z) : bool :=
  ((400 <=? status) && (status <? 600))%Z.

(** The text of the [HTTPError] it raises, which is what [str(e)] gives:
    [f"{status_code} Client Error: {reason} for url: {self.url}"], with
    [Server Error] from 500 on. *)
Definition http_error_msg (status : Z) (reason u : string) : string :=
  str status +:+
  (if (status <? 500)%Z then " Client Error: " else " Server Error: ") +:+
  reason +:+ " for url: " +:+ u.

(** [fetch_page] (lines 53-64), the synchronous fetcher. *)
Definition fetch_page (E : Env) (self : WebScraper) (u : string) (w : World)
  : option string * World :=
  if negb (Robots.can_fetch (robot_parser self) "*" u) then
    (None, emit (LogWarning (denied_msg u)) w)
  else
    let w1 := send_request u w in
    match net E u with
    | HttpResponse status body =>
        if raise_for_status status
        then (None, emit (LogError (error_msg u (http_error_msg status (reason E u)
                                                    (response_url E u)))) w1)
        else (Some body, w1)
    | ClientError msg => (None, emit (LogError (error_msg u msg)) w1)
    end.

(** [async_fetch_page] (lines 77-87). The coroutine has one suspension
    point, [session.get(url)]; it is split there. *)
Inductive Suspended :=
| Returned (r : option string)     (* finished without awaiting *)
| Awaiting (u : string).           (* request sent, waiting for the answer *)

(** Up to the suspension point. *)
Definition async_fetch_page_begin (self : WebScraper) (u : string) (w : World)
  : Suspended * World :=
  if negb (Robots.can_fetch (robot_parser self) "*" u) then
    (Returned None, emit (LogWarning (denied_msg u)) w)
  else
    (Awaiting u, send_request u w).

(** From the answer to the return: the body text whatever the status; a
    [ClientError] is logged and gives [None]. *)
Definition async_fetch_page_resume (u : string) (o : Outcome) (w : World)
  : option string * World :=
  match o with
  | HttpResponse _ body => (Some body, w)
  | ClientError msg => (None, emit (LogError (error_msg u msg)) w)
  end.

(** The coroutine run on its own, begin to end. *)
Definition async_fetch_page (E : Env) (self : WebScraper) (u : string) (w : World)
  : option string * World :=
  match async_fetch_page_begin self u w with
  | (Returned r, w1) => (r, w1)
  | (Awaiting u', w1) => async_fetch_page_resume u' (net E u') w1
  end.

(** ** The event loop under [asyncio.gather] (lines 91-93) *)

(** One task per url. *)
Inductive Task :=
| Pending                       (* created, not yet run *)
| InFlight                      (* suspended in [session.get] *)
| Done (r : option string).     (* returned [r] *)

Record Loop := mkLoop {
  tasks : list Task;
  world : World
}.

(** What the loop does next: run a pending task up to its suspension point,
    or deliver the answer to a suspended one. The order of these events is
    the interleaving; nothing in main.py constrains it. A request counts as
    in flight from [session.get] until its answer is delivered. The
    interleavings here include all those of a real run; the connector of
    the session, which holds a request back while all its connections are
    in use, rules some of them out and is added below
    ([exec_event_connector]). *)
Inductive Event :=
| Start (i : nat)
| Complete (i : nat).

Definition exec_event (E : Env) (self : WebScraper) (urls : list string)
           (ev : Event) (l : Loop) : option Loop :=
  match ev with
  | Start i =>
      match tasks l !! i, urls !! i with
      | Some Pending, Some u =>
          match async_fetch_page_begin self u (world l) with
          | (Returned r, w) => Some (mkLoop (<[i := Done r]> (tasks l)) w)
          | (Awaiting _, w) => Some (mkLoop (<[i := InFlight]> (tasks l)) w)
          end
      | _, _ => None
      end
  | Complete i =>
      match tasks l !! i, urls !! i with
      | Some InFlight, Some u =>
          match async_fetch_page_resume u (net E u) (world l) with
          | (r, w) => Some (mkLoop (<[i := Done r]> (tasks l)) w)
          end
      | _, _ => None
      end
  end.

Fixpoint exec_schedule (E : Env) (self : WebScraper) (urls : list string)
         (sched : list Event) (l : Loop) : option Loop :=
  match sched with
  | [] => Some l
  | ev :: sched' =>
      match exec_event E self urls ev l with
      | Some l' => exec_schedule E self urls sched' l'
      | None => None
      end
  end.

(** [gather] returns once every task is done, with the results in the order
    of its arguments. *)
Fixpoint results (ts : list Task) : option (list (option string)) :=
  match ts with
  | [] => Some []
  | Done r :: ts' =>
      match results ts' with
      | Some rs => Some (r :: rs)
      | None => None
      end
  | _ :: _ => None
  end.

Definition gather (E : Env) (self : WebScraper) (urls : list string)
           (sched : list Event) (w : World)
  : option (list (option string) * World) :=
  match exec_schedule E self urls sched (mkLoop (replicate (length urls) Pending) w) with
  | Some l =>
      match results (tasks l) with
      | Some pages => Some (pages, world l)
      | None => None
      end
  | None => None
  end.

Definition is_in_flight (t : Task) : bool :=
  match t with
  | InFlight => true
  | _ => false
  end.

(** The number of requests sent and not yet answered. *)
Definition in_flight (l : Loop) : nat :=
  length (List.filter is_in_flight (tasks l)).

(** Whether the i-th url may be fetched. *)
Definition permitted (self : WebScraper) (urls : list string) (i : nat) : bool :=
  match urls !! i with
  | Some u => Robots.can_fetch (robot_parser self) "*" u
  | None => false
  end.

(** The interleaving in which every task is started in argument order and
    the answers then arrive in argument order. *)
Definition fifo_schedule (self : WebScraper) (urls : list string) : list Event :=
  (Start <$> seq 0 (length urls)) ++
  (Complete <$> List.filter (permitted self urls) (seq 0 (length urls))).

(** ** The connector of the session (line 91)

    [aiohttp.ClientSession()] is given no connector and makes its own, a
    [TCPConnector] with the default [limit] of 100 simultaneous
    connections. [session.get] takes a connection before the request goes
    out and waits as long as none is available
    ([_available_connections() <= 0]); the connection is given back when
    the answer has been read. [limit] is a parameter of the connector that
    main.py leaves at its default. *)
Module Connector.

Definition limit : nat := 100.

(** [_available_connections]: how many connections can still be taken
    while [acquired] are in use. *)
Definition available (acquired : nat) : nat := limit - acquired.

End Connector.

(** The loop with the connector. For a permitted url the event [Start i]
    is the moment at which the task is given its connection and the request
    goes out: it cannot happen while no connection is available. Every run
    of this loop is a run of [exec_event]. *)
Definition exec_event_connector (E : Env) (self : WebScraper) (urls : list string)
           (ev : Event) (l : Loop) : option Loop :=
  match ev with
  | Start i =>
      if permitted self urls i && (Connector.available (in_flight l) =? 0)
      then None
      else exec_event E self urls ev l
  | Complete _ => exec_event E self urls ev l
  end.

Fixpoint exec_schedule_connector (E : Env) (self : WebScraper) (urls : list string)
         (sched : list Event) (l : Loop) : option Loop :=
  match sched with
  | [] => Some l
  | ev :: sched' =>
      match exec_event_connector E self urls ev l with
      | Some l' => exec_schedule_connector E self urls sched' l'
      | None => None
      end
  end.

(** The interleaving in which each answer arrives before the next task is
    started. *)
Definition one_by_one (self : WebScraper) (urls : list string) : list Event :=
  flat_map (fun i => Start i :: if permitted self urls i then [Complete i] else [])
           (seq 0 (length urls)).

(** ** [async_scrape] (lines 89-103) *)

(** [range(1, max_pages + 1)]. *)
Definition page_range (max_pages : Z) : list Z :=
  (fun k => Z.of_nat k) <$> seq 1 (Z.to_nat max_pages).

Definition page_url (base : string) (page : Z) : string :=
  base +:+ "/page/" +:+ str page.

Definition page_urls (base : string) (max_pages : Z) : list string :=
  page_url base <$> page_range max_pages.

(** The loop over [zip(urls, pages)] (lines 95-101). [if html:] is the
    truthiness of an [Optional[str]]: false for [None] and for the empty
    string. An exception of [extract_data] leaves the loop with the items
    saved so far still in the database. *)
Definition truthy (html : option string) : bool :=
  match html with
  | Some EmptyString => false
  | Some _ => true
  | None => false
  end.

Fixpoint process_pages (E : Env) (zipped : list (string * option string))
         (all_data : list ScrapedItem) (w : World)
  : (Exn + list ScrapedItem) * World :=
  match zipped with
  | [] => (inr all_data, w)
  | (u, html) :: rest =>
      match html with
      | Some body =>
          if truthy html then
            match Soup.extract_data (parse_page E body) u with
            | inl e => (inl e, w)
            | inr item => process_pages E rest (all_data ++ [item]) (save item w)
            end
          else process_pages E rest all_data w
      | None => process_pages E rest all_data w
      end
  end.

(** [async_scrape]; [sched] is the interleaving the event loop happens to
    follow. The result is [None] only when [sched] is not a run of the loop
    that lets [gather] return. *)
Definition async_scrape (E : Env) (self : WebScraper) (sched : list Event)
           (max_pages : Z) (w : World)
  : option ((Exn + list ScrapedItem) * World) :=
  let urls := page_urls (base_url self) max_pages in
  match gather E self urls sched w with
  | Some (pages, w1) => Some (process_pages E (zip urls pages) [] w1)
  | None => None
  end.

(** ** The csv module as used by [export_to_csv] (lines 113-119) *)
Module Csv.

(** The [excel] dialect, the default of [csv.DictWriter] and
    [csv.DictReader]: delimiter [,], quote character (code 34),
    [doublequote], line terminator CR LF, QUOTE_MINIMAL, no escape
    character, not strict. *)
Definition delimiter : ascii := ","%char.
Definition quotechar : ascii := "034"%char.
Definition CR : ascii := "013"%char.
Definition LF : ascii := "010"%char.
Definition lineterminator : list ascii := [CR; LF].

(** *** Writer *)

(** A character that forces the field to be quoted under QUOTE_MINIMAL. *)
Definition special (c : ascii) : bool :=
  Ascii.eqb c delimiter || Ascii.eqb c quotechar ||
  existsb (Ascii.eqb c) lineterminator.

(** [join_append_data]: the characters of the field as they are copied
    into the record (a quote character is doubled), and whether the field
    has to be quoted. *)
Fixpoint join_append_data (field : list ascii) : bool * list ascii :=
  match field with
  | [] => (false, [])
  | c :: rest =>
      let '(quoted, out) := join_append_data rest in
      if special c then
        (true, if Ascii.eqb c quotechar then quotechar :: c :: out else c :: out)
      else (quoted, c :: out)
  end.

(** [join_append]: what the field adds to the record when [num_fields]
    fields are already there. *)
Definition join_append (num_fields : nat) (field : list ascii) : list ascii :=
  let '(quoted, out) := join_append_data field in
  (if (num_fields =? 0)%nat then [] else [delimiter]) ++
  (if quoted then quotechar :: out ++ [quotechar] else out).

Fixpoint join_fields (num_fields : nat) (row : list (list ascii)) : list ascii :=
  match row with
  | [] => []
  | f :: fs => join_append num_fields f ++ join_fields (S num_fields) fs
  end.

(** [writer.writerow]: a record that is empty although the row has a field
    (the row is one empty field) is written as an empty quoted field. *)
Definition writerow (row : list (list ascii)) : list ascii :=
  let rec := join_fields 0 row in
  (match rec, row with
   | [], _ :: _ => [quotechar; quotechar]
   | _, _ => rec
   end) ++ lineterminator.

(** [csv.DictWriter(csvfile, fieldnames=['title', 'description', 'url'])]:
    a row dict is laid out in the order of [fieldnames]; an absent key
    gives [restval], the empty string. *)
Definition fieldnames : list string := ["title"; "description"; "url"]%string.

Definition _dict_to_list (rowdict : gmap string string) : list (list ascii) :=
  (fun key => list_ascii_of_string (default EmptyString (rowdict !! key))) <$> fieldnames.

(** [dataclasses.asdict(item)]. *)
Definition asdict (item : ScrapedItem) : gmap string string :=
  <["title"%string := title item]>
    (<["description"%string := description item]>
       (<["url"%string := url item]> ∅)).

(** [writeheader]: [writerow(dict(zip(fieldnames, fieldnames)))]. *)
Definition writeheader : list ascii :=
  writerow (_dict_to_list (list_to_map (zip fieldnames fieldnames))).

(** [export_to_csv]: the characters written to the file (opened with
    [newline=''], so no translation of line ends takes place). *)
Definition export_to_csv (data : list ScrapedItem) : list ascii :=
  writeheader ++ concat ((fun item => writerow (_dict_to_list (asdict item))) <$> data).

(** *** Reader *)

(** Iterating over a text file opened with [newline='']: lines end at LF,
    at CR, or at CR LF, and keep their terminator. [cur] is the line
    being collected. *)
Fixpoint split_acc (cur : list ascii) (cs : list ascii) : list (list ascii) :=
  match cs with
  | [] => match cur with [] => [] | _ => [cur] end
  | c :: rest =>
      if Ascii.eqb c LF then (cur ++ [c]) :: split_acc [] rest
      else if Ascii.eqb c CR then
        match rest with
        | c' :: rest' =>
            if Ascii.eqb c' LF then (cur ++ [c; c']) :: split_acc [] rest'
            else (cur ++ [c]) :: split_acc [] rest
        | [] => (cur ++ [c]) :: split_acc [] rest
        end
      else split_acc (cur ++ [c]) rest
  end.

Definition file_lines (cs : list ascii) : list (list ascii) := split_acc [] cs.

(** The states of the parser that are reachable without an escape
    character. *)
Inductive ParserState :=
| START_RECORD
| START_FIELD
| IN_FIELD
| IN_QUOTED_FIELD
| QUOTE_IN_QUOTED_FIELD
| EAT_CRNL.

Record Reader := mkReader {
  state : ParserState;
  field : list ascii;            (* the field being collected *)
  fields : list (list ascii)     (* the fields of the record so far *)
}.

(** [parse_reset]. *)
Definition parse_reset : Reader := mkReader START_RECORD [] [].

Definition parse_save_field (r : Reader) (s : ParserState) : Reader :=
  mkReader s [] (fields r ++ [field r]).

(** [parse_add_char]; the limit on the field size
    ([csv.field_size_limit()], a setting of the reading process) is not
    modelled. *)
Definition parse_add_char (r : Reader) (c : ascii) (s : ParserState) : Reader :=
  mkReader s (field r ++ [c]) (fields r).

Definition set_state (r : Reader) (s : ParserState) : Reader :=
  mkReader s (field r) (fields r).

Definition is_newline (c : ascii) : bool := Ascii.eqb c LF || Ascii.eqb c CR.

(** The state after a field or record ended at [c]: [None] is the
    end-of-line marker the reader feeds after each line. *)
Definition after_end (c : option ascii) : ParserState :=
  match c with
  | None => START_RECORD
  | Some _ => EAT_CRNL
  end.

Definition ends_line (c : option ascii) : bool :=
  match c with
  | None => true
  | Some ch => is_newline ch
  end.

(** The case START_FIELD of [parse_process_char], which START_RECORD
    falls through to. *)
Definition start_field (r : Reader) (c : option ascii) : Reader :=
  if ends_line c then parse_save_field r (after_end c)
  else match c with
       | Some ch =>
           if Ascii.eqb ch quotechar then set_state r IN_QUOTED_FIELD
           else if Ascii.eqb ch delimiter then parse_save_field r START_FIELD
           else parse_add_char r ch IN_FIELD
       | None => r
       end.

(** [parse_process_char]; [None] is the [csv.Error] of EAT_CRNL. *)
Definition parse_process_char (r : Reader) (c : option ascii) : option Reader :=
  match state r with
  | START_RECORD =>
      match c with
      | None => Some r
      | Some ch =>
          if is_newline ch then Some (set_state r EAT_CRNL)
          else Some (start_field r c)
      end
  | START_FIELD => Some (start_field r c)
  | IN_FIELD =>
      if ends_line c then Some (parse_save_field r (after_end c))
      else match c with
           | Some ch =>
               if Ascii.eqb ch delimiter then Some (parse_save_field r START_FIELD)
               else Some (parse_add_char r ch IN_FIELD)
           | None => Some r
           end
  | IN_QUOTED_FIELD =>
      match c with
      | None => Some r
      | Some ch =>
          if Ascii.eqb ch quotechar then Some (set_state r QUOTE_IN_QUOTED_FIELD)
          else Some (parse_add_char r ch IN_QUOTED_FIELD)
      end
  | QUOTE_IN_QUOTED_FIELD =>
      match c with
      | Some ch =>
          if Ascii.eqb ch quotechar then Some (parse_add_char r ch IN_QUOTED_FIELD)
          else if Ascii.eqb ch delimiter then Some (parse_save_field r START_FIELD)
          else if is_newline ch then Some (parse_save_field r EAT_CRNL)
          else Some (parse_add_char r ch IN_FIELD)
      | None => Some (parse_save_field r START_RECORD)
      end
  | EAT_CRNL =>
      match c with
      | None => Some (set_state r START_RECORD)
      | Some ch => if is_newline ch then Some r else None
      end
  end.

Definition is_start_record (s : ParserState) : bool :=
  match s with START_RECORD => true | _ => false end.

Definition is_in_quoted (s : ParserState) : bool :=
  match s with IN_QUOTED_FIELD => true | _ => false end.

(** One line: its characters, then the end-of-line marker. *)
Fixpoint feed (r : Reader) (cs : list ascii) : option Reader :=
  match cs with
  | [] => Some r
  | c :: cs' =>
      match parse_process_char r (Some c) with
      | Some r' => feed r' cs'
      | None => None
      end
  end.

Definition feed_line (r : Reader) (line : list ascii) : option Reader :=
  match feed r line with
  | Some r' => parse_process_char r' None
  | None => None
  end.

(** What is returned when the input ends inside a record. *)
Definition at_end_of_input (r : Reader) : list (list (list ascii)) :=
  match field r with
  | [] => if is_in_quoted (state r) then [fields r ++ [field r]] else []
  | _ => [fields r ++ [field r]]
  end.

(** All the rows of [csv.reader(lines)]: [Reader_iternext] takes lines
    until the parser is back in START_RECORD and returns the fields; the
    next call starts from [parse_reset]. [None] is a [csv.Error]. *)
Fixpoint reader_from (r : Reader) (lines : list (list ascii))
  : option (list (list (list ascii))) :=
  match lines with
  | [] => Some (at_end_of_input r)
  | line :: rest =>
      match feed_line r line with
      | None => None
      | Some r' =>
          if is_start_record (state r') then
            match reader_from parse_reset rest with
            | Some rows => Some (fields r' :: rows)
            | None => None
            end
          else reader_from r' rest
      end
  end.

Definition reader (lines : list (list ascii)) : option (list (list (list ascii))) :=
  reader_from parse_reset lines.

(** [dict(zip(fieldnames, row))]: a later pair overrides an earlier one
    with the same key. *)
Definition dict_of (keys values : list string) : gmap string string :=
  foldl (fun d kv => <[kv.1 := kv.2]> d) ∅ (zip keys values).

(** [csv.DictReader]: the first row gives the field names, empty rows are
    skipped, every other row becomes a dict. *)
Definition DictReader (rows : list (list string)) : list (gmap string string) :=
  match rows with
  | [] => []
  | names :: rest =>
      dict_of names <$> List.filter (fun row => match row with [] => false | _ => true end) rest
  end.

(** Reading a record back: [(row['title'], row['description'], row['url'])],
    [None] when a key is missing. *)
Definition tuple_of (d : gmap string string) : option (string * string * string) :=
  match d !! "title"%string, d !! "description"%string, d !! "url"%string with
  | Some t, Some de, Some u => Some (t, de, u)
  | _, _, _ => None
  end.

(** Parsing a csv file back into tuples; [None] if the reader raises or a
    record lacks one of the three keys. *)
Definition parse_csv (file : list ascii) : option (list (string * string * string)) :=
  match reader (file_lines file) with
  | None => None
  | Some rows =>
      mapM (M := option) tuple_of
        (DictReader (List.map (List.map string_of_list_ascii) rows))
  end.

Definition item_tuple (item : ScrapedItem) : string * string * string :=
  (title item, description item, url item).

End Csv.

(** ** [main] (lines 125-138) *)

(** How a run of the script ends. [export_to_json] and the printed summary
    write the same list once more and change nothing that is modelled
    here. *)
Inductive Run :=
| Aborted (e : Exn)
    (* the constructor raised: no scraper, nothing fetched or written *)
| Crashed (e : Exn) (w : World)
    (* [async_scrape] raised *)
| Completed (results : list ScrapedItem) (w : World) (csv_file : list ascii).

Definition main_base_url : string := "https://example.com".

Definition main (E : Env) (sched : list Event) : option Run :=
  match __init__ E main_base_url with
  | inl e => Some (Aborted e)
  | inr (scraper, w) =>
      match async_scrape E scraper sched 5 w with
      | None => None
      | Some (inl e, w') => Some (Crashed e w')
      | Some (inr results, w') =>
          Some (Completed results w' (Csv.export_to_csv results))
      end
  end.

(** The exit status of the interpreter: 0 when [main] returns, 1 when an
    exception is not caught. *)
Definition exit_code (r : Run) : Z :=
  match r with
  | Completed _ _ _ => 0
  | _ => 1
  end.

Definition requests_of (r : Run) : list string :=
  match r with
  | Aborted _ => []
  | Crashed _ w => requests w
  | Completed _ w _ => requests w
  end.

Definition results_of (r : Run) : list ScrapedItem :=
  match r with
  | Completed results _ _ => results
  | _ => []
  end.


(** ** The json module as used by [export_to_json] (lines 121-123) *)
Module Json.

Definition quote : ascii := "034"%char.
Definition backslash : ascii := "092"%char.
Definition LF : ascii := "010"%char.

(** One lower-case hexadecimal digit. *)
Definition hexdigit (n : nat) : ascii :=
  nth n (list_ascii_of_string "0123456789abcdef") "0"%char.

(** [ESCAPE_DCT] of json.encoder, the table used when [ensure_ascii] is
    false: the quote, the backslash and the characters below 32 are
    escaped, every other character is written as it is. *)
Definition escape_char (c : ascii) : list ascii :=
  let n := nat_of_ascii c in
  if Ascii.eqb c quote then [backslash; quote]
  else if Ascii.eqb c backslash then [backslash; backslash]
  else if (n =? 8)%nat then [backslash; "b"%char]
  else if (n =? 12)%nat then [backslash; "f"%char]
  else if (n =? 10)%nat then [backslash; "n"%char]
  else if (n =? 13)%nat then [backslash; "r"%char]
  else if (n =? 9)%nat then [backslash; "t"%char]
  else if (n <? 32)%nat then
    [backslash; "u"%char; "0"%char; "0"%char; hexdigit (n / 16); hexdigit (n mod 16)]
  else [c].

(** [encode_basestring]. *)
Definition encode_basestring (s : string) : list ascii :=
  quote :: flat_map escape_char (list_ascii_of_string s) ++ [quote].

(** The line break and indentation at nesting depth [level], for
    [indent=2]. *)
Definition newline_indent (level : nat) : list ascii :=
  LF :: replicate (2 * level) " "%char.

(** Chunks joined by a separator. *)
Fixpoint join (sep : list ascii) (chunks : list (list ascii)) : list ascii :=
  match chunks with
  | [] => []
  | [x] => x
  | x :: rest => x ++ sep ++ join sep rest
  end.

(** [_iterencode_dict] on a dict of strings, given as its items in
    insertion order; with an indent the item separator is [,] and the key
    separator is [: ]. *)
Definition iterencode_dict (level : nat) (d : list (string * string)) : list ascii :=
  match d with
  | [] => list_ascii_of_string "{}"
  | _ =>
      ["{"%char] ++ newline_indent (S level) ++
      join (","%char :: newline_indent (S level))
           ((fun kv => encode_basestring kv.1 ++ [":"%char; " "%char] ++
                       encode_basestring kv.2) <$> d) ++
      newline_indent level ++ ["}"%char]
  end.

(** [_iterencode_list] on a list of such dicts. *)
Definition iterencode_list (level : nat) (l : list (list (string * string))) : list ascii :=
  match l with
  | [] => list_ascii_of_string "[]"
  | _ =>
      ["["%char] ++ newline_indent (S level) ++
      join (","%char :: newline_indent (S level)) (iterencode_dict (S level) <$> l) ++
      newline_indent level ++ ["]"%char]
  end.

(** [dataclasses.asdict(item)], as its items in field order. *)
Definition asdict (item : ScrapedItem) : list (string * string) :=
  [("title"%string, title item);
   ("description"%string, description item);
   ("url"%string, url item)].

(** [export_to_json]: the text handed to the file by
    [json.dump([asdict(item) for item in data], jsonfile,
    ensure_ascii=False, indent=2)]. *)
Definition export_to_json (data : list ScrapedItem) : list ascii :=
  iterencode_list 0 (asdict <$> data).

End Json.

(* ===================================================================== *)
(** * Part II: vocabulary of the statements                               *)
(* ===================================================================== *)

(** ** Extraction *)
Module SoupSpec.
Import Soup.

(** A tag that satisfies [p] occurs in the element, at any depth. *)
Inductive occurs_in (p : string -> gmap string string -> bool) : PageElement -> Prop :=
| occurs_here n a cs : p n a = true -> occurs_in p (Tag n a cs)
| occurs_below n a cs c : c ∈ cs -> occurs_in p c -> occurs_in p (Tag n a cs).

Definition occurs (p : string -> gmap string string -> bool) (soup : BeautifulSoup) : Prop :=
  exists c, c ∈ soup /\ occurs_in p c.

(** The page [<meta name="description">]: no [h1], and a description tag
    that carries no [content]. *)
Definition meta_without_content : BeautifulSoup :=
  [Tag "meta" {[ "name"%string := "description"%string ]} []].

End SoupSpec.

(** ** The fetch phase *)

(** What [async_fetch_page] returns for a url; it does not depend on the
    world the coroutine runs in. *)
Definition page_result (E : Env) (self : WebScraper) (u : string) : option string :=
  (async_fetch_page E self u (mkWorld [] [] Store.empty_table)).1.

Definition task_ok (E : Env) (self : WebScraper) (urls : list string)
           (i : nat) (t : Task) : Prop :=
  match t with
  | Pending => True
  | InFlight =>
      exists u, urls !! i = Some u /\ Robots.can_fetch (robot_parser self) "*" u = true
  | Done r => exists u, urls !! i = Some u /\ r = page_result E self u
  end.

(** What holds of the loop at every point of every interleaving; [w0] is
    the world [gather] was called in. *)
Record loop_inv (E : Env) (self : WebScraper) (urls : list string) (w0 : World)
       (l : Loop) : Prop := {
  inv_length : length (tasks l) = length urls;
  inv_tasks : forall i t, tasks l !! i = Some t -> task_ok E self urls i t;
  inv_database : database (world l) = database w0;
  inv_requests :
    forall v, v ∈ requests (world l) ->
              v ∈ requests w0 \/
              (v ∈ urls /\ Robots.can_fetch (robot_parser self) "*" v = true);
  inv_warned :
    forall i u r, tasks l !! i = Some (Done r) -> urls !! i = Some u ->
                  Robots.can_fetch (robot_parser self) "*" u = false ->
                  LogWarning (denied_msg u) ∈ log (world l)
}.

(** The task of a url once started, and once finished. *)
Definition started (self : WebScraper) (u : string) : Task :=
  if Robots.can_fetch (robot_parser self) "*" u then InFlight else Done None.

Definition finished (E : Env) (self : WebScraper) (u : string) : Task :=
  Done (page_result E self u).

Definition save_all (tb : Store.Table) (items : list ScrapedItem) : Store.Table :=
  foldl (fun acc it => Store._save_to_database it acc) tb items.

(** ** Loading the exclusion policy *)

(** The robots.txt document could not be retrieved, or its bytes could not
    be decoded. *)
Definition policy_unavailable (r : Robots.urlopen_result) : Prop :=
  match r with
  | Robots.Document (Some _) => False
  | _ => True
  end.

(** Whenever the policy is unavailable, the run is aborted by the
    constructor. *)
Definition aborts_when_unavailable (E : Env) (sched : list Event) : Prop :=
  policy_unavailable (robots_txt E) ->
  exists e, main E sched = Some (Aborted e).

(** A status for which [read] sets [allow_all]. *)
Definition sets_allow_all (code : Z) : bool :=
  (negb ((code =? 401) || (code =? 403)) && ((400 <=? code) && (code <? 500)))%Z.

(** ** Concrete runs, used to instantiate the statements *)

(** The body is plain text, except for one page with a heading. *)
Definition example_parser (body : string) : Soup.BeautifulSoup :=
  if String.eqb body "<h1>Internal Server Error</h1>"
  then [Soup.Tag "h1" ∅ [Soup.NavigableString "Internal Server Error"]]
  else [Soup.NavigableString body].

(** A robots.txt with one rule, and its matching. *)
Definition example_robots_txt : string :=
  "User-agent: *" +:+ String "010" "Disallow: /page/3".

Definition example_grammar (text useragent u : string) : bool :=
  negb (String.eqb u "https://example.com/page/3").

(** Page 2 answers 500 with a body, page 4 answers with an empty body, the
    connection to page 5 fails. *)
Definition example_net (u : string) : Outcome :=
  if String.eqb u "https://example.com/page/2"
  then HttpResponse 500 "<h1>Internal Server Error</h1>"
  else if String.eqb u "https://example.com/page/4"
  then HttpResponse 200 ""
  else if String.eqb u "https://example.com/page/5"
  then ClientError "Connection reset"
  else HttpResponse 200 "welcome".

Definition example_reason (u : string) : string :=
  if String.eqb u "https://example.com/page/2" then "Internal Server Error" else "OK".

Definition example_env : Env :=
  mkEnv (Robots.Document (Some example_robots_txt)) example_grammar example_net
        example_parser None example_reason (fun u => u).

Definition example_scraper : WebScraper :=
  mkScraper main_base_url (Robots.parse example_grammar example_robots_txt Robots.new).

Definition example_world : World := mkWorld [] [] Store.empty_table.

(** Answers arrive in the order 5, 1, 4, 2 while page 3 is denied. *)
Definition example_schedule : list Event :=
  [Start 0; Start 1; Start 2; Start 3; Start 4;
   Complete 4; Complete 0; Complete 3; Complete 1].

(** The server has no robots.txt: it answers 404. *)
Definition not_found_env : Env :=
  mkEnv (Robots.HTTPError 404) example_grammar example_net example_parser None
        example_reason (fun u => u).

(** It answers 403. *)
Definition forbidden_env : Env :=
  mkEnv (Robots.HTTPError 403) example_grammar example_net example_parser None
        example_reason (fun u => u).


Definition all_answered : list Event :=
  (Start <$> seq 0 5) ++ (Complete <$> seq 0 5).

(** ** The csv reader over one stream *)
Module CsvStream.
Import Csv.

(** The lines of a file as one stream of characters and end-of-line
    markers. *)
Definition line_tokens (lines : list (list ascii)) : list (option ascii) :=
  concat ((fun l => (Some <$> l) ++ [None]) <$> lines).

(** The stream for a text, read off the characters directly; [mid] tells
    whether a line has been begun. *)
Fixpoint tk (mid : bool) (cs : list ascii) : list (option ascii) :=
  match cs with
  | [] => if mid then [None] else []
  | c :: rest =>
      if Ascii.eqb c LF then Some c :: None :: tk false rest
      else if Ascii.eqb c CR then
        match rest with
        | c' :: rest' =>
            if Ascii.eqb c' LF then Some c :: Some c' :: None :: tk false rest'
            else Some c :: None :: tk false rest
        | [] => Some c :: None :: tk false rest
        end
      else Some c :: tk true rest
  end.

(** The reader over such a stream. *)
Fixpoint run (r : Reader) (ts : list (option ascii))
  : option (list (list (list ascii))) :=
  match ts with
  | [] => Some (at_end_of_input r)
  | t :: ts' =>
      match parse_process_char r t with
      | None => None
      | Some r' =>
          match t with
          | None =>
              if is_start_record (state r') then
                match run parse_reset ts' with
                | Some rows => Some (fields r' :: rows)
                | None => None
                end
              else run r' ts'
          | Some _ => run r' ts'
          end
      end
  end.

Definition non_empty (cur : list ascii) : bool :=
  match cur with [] => false | _ => true end.

(** The field as it stands in the record. *)
Definition field_text (s : list ascii) : list ascii :=
  let '(quoted, out) := join_append_data s in
  if quoted then quotechar :: out ++ [quotechar] else out.

(** The states in which a field begins. *)
Definition field_start (st : ParserState) : Prop :=
  st = START_FIELD \/ st = START_RECORD.

(** The row written for an item. *)
Definition item_row (item : ScrapedItem) : list (list ascii) :=
  [list_ascii_of_string (title item);
   list_ascii_of_string (description item);
   list_ascii_of_string (url item)].

End CsvStream.

(** ** The traces of the fetch phase *)

Definition is_begun (t : Task) : bool :=
  match t with
  | Pending => false
  | _ => true
  end.

Definition is_done (t : Task) : bool :=
  match t with
  | Done _ => true
  | _ => false
  end.

(** The records [async_fetch_page] logs for a url: the warning for a denied
    url, the error for a permitted url whose request fails, nothing for a
    url that is answered. *)
Definition records_of (E : Env) (self : WebScraper) (u : string) : list LogRecord :=
  if Robots.can_fetch (robot_parser self) "*" u then
    match net E u with
    | HttpResponse _ _ => []
    | ClientError msg => [LogError (error_msg u msg)]
    end
  else [LogWarning (denied_msg u)].

(** What the task of a url has logged so far. *)
Definition emitted (E : Env) (self : WebScraper) (u : string) (t : Task) : list LogRecord :=
  if is_done t then records_of E self u else [].

(** The requests [rq] sent since [gather] was called: one for each permitted
    url whose task has begun. *)
Record requests_inv (self : WebScraper) (urls : list string) (w0 : World)
       (l : Loop) (rq : list string) : Prop := {
  rq_eq : requests (world l) = requests w0 ++ rq;
  rq_nodup : NoDup rq;
  rq_mem :
    forall v, v ∈ rq <->
              exists i t, urls !! i = Some v /\ tasks l !! i = Some t /\
                          is_begun t = true /\
                          Robots.can_fetch (robot_parser self) "*" v = true
}.

(** The records [lg] logged since [gather] was called: those of the tasks
    that are done, each as often as it was logged, in some order. *)
Record log_inv (E : Env) (self : WebScraper) (urls : list string) (w0 : World)
       (l : Loop) (lg : list LogRecord) : Prop := {
  lg_eq : log (world l) = log w0 ++ lg;
  lg_perm : lg ≡ₚ concat (zip_with (emitted E self) urls (tasks l))
}.

(** ** The pages that give an item *)

(** A url gives an item when it is permitted and answered with a non-empty
    body. *)
Definition scraped (E : Env) (self : WebScraper) (u : string) : bool :=
  truthy (page_result E self u).

(** ** Document order and white space *)
Module SoupOrder.
Import Soup.

(** [Tag.descendants] with the element itself in front: the elements in
    the order in which their start appears in the document. *)
Fixpoint descendants (e : PageElement) : list PageElement :=
  e :: match e with
       | Tag _ _ cs =>
           (fix below (l : list PageElement) : list PageElement :=
              match l with
              | [] => []
              | c :: l' => descendants c ++ below l'
              end) cs
       | NavigableString _ => []
       end.

(** All the elements of a document, in document order. *)
Fixpoint document (soup : BeautifulSoup) : list PageElement :=
  match soup with
  | [] => []
  | c :: l' => descendants c ++ document l'
  end.

(** The element is a tag that meets the criteria. *)
Definition meets (p : string -> gmap string string -> bool) (e : PageElement) : bool :=
  match e with
  | Tag n a _ => p n a
  | NavigableString _ => false
  end.

(** The [content] of a tag, the empty string when it has none. *)
Definition content_of (e : PageElement) : string :=
  match e with
  | Tag _ a _ => default EmptyString (a !! "content"%string)
  | NavigableString _ => EmptyString
  end.

(** Made of white-space characters only. *)
Inductive white : string -> Prop :=
| white_nil : white EmptyString
| white_cons p s : p ∈ spaces -> white s -> white (p +:+ s).

(** The first character is white space; the last character is. *)
Definition begins_with_space (s : string) : Prop :=
  exists p r, p ∈ spaces /\ s = (p +:+ r)%string.

Definition ends_with_space (s : string) : Prop :=
  exists p r, p ∈ spaces /\ s = (r +:+ p)%string.

End SoupOrder.

(** ** Reading one escaped character back *)
Module JsonRead.
Import Json.

Definition hexvalue (c : ascii) : nat :=
  let n := nat_of_ascii c in
  if (n <? 58)%nat then n - 48 else n - 87.

(** The character at the front of the body of a string literal, and what
    follows it; [None] at the closing quote and on a broken escape. *)
Definition unescape_char (cs : list ascii) : option (ascii * list ascii) :=
  match cs with
  | [] => None
  | c :: rest =>
      if Ascii.eqb c quote then None
      else if Ascii.eqb c backslash then
        match rest with
        | e :: rest' =>
            if Ascii.eqb e quote then Some (quote, rest')
            else if Ascii.eqb e backslash then Some (backslash, rest')
            else if Ascii.eqb e "b"%char then Some (ascii_of_nat 8, rest')
            else if Ascii.eqb e "f"%char then Some (ascii_of_nat 12, rest')
            else if Ascii.eqb e "n"%char then Some (ascii_of_nat 10, rest')
            else if Ascii.eqb e "r"%char then Some (ascii_of_nat 13, rest')
            else if Ascii.eqb e "t"%char then Some (ascii_of_nat 9, rest')
            else if Ascii.eqb e "u"%char then
              match rest' with
              | _ :: _ :: h1 :: h2 :: rest'' =>
                  Some (ascii_of_nat (16 * hexvalue h1 + hexvalue h2), rest'')
              | _ => None
              end
            else None
        | [] => None
        end
      else Some (c, rest)
  end.

(** The text of an item at nesting depth 1, up to each of its values. *)
Definition before_title : list ascii :=
  ["{"%char] ++ newline_indent 2 ++ encode_basestring "title" ++ [":"%char; " "%char].

Definition before_description : list ascii :=
  (","%char :: newline_indent 2) ++ encode_basestring "description" ++ [":"%char; " "%char].

Definition before_url : list ascii :=
  (","%char :: newline_indent 2) ++ encode_basestring "url" ++ [":"%char; " "%char].

Definition after_url : list ascii := newline_indent 1 ++ ["}"%char].

End JsonRead.

(** ** Fields that need no quoting *)

(** No delimiter, quote or line break in the string. *)
Definition plain (s : string) : bool :=
  forallb (fun c => negb (Csv.special c)) (list_ascii_of_string s).

(** The row of an item written without any quoting. *)
Definition verbatim_row (item : ScrapedItem) : list ascii :=
  list_ascii_of_string (title item) ++ [Csv.delimiter] ++
  list_ascii_of_string (description item) ++ [Csv.delimiter] ++
  list_ascii_of_string (url item) ++ Csv.lineterminator.

(** ** A run that is cut short *)

(** The body [bad] is a page whose description tag has no [content]; every
    other body is a page with that text as its heading. *)
Definition broken_parser (body : string) : Soup.BeautifulSoup :=
  if String.eqb body "bad" then SoupSpec.meta_without_content
  else [Soup.Tag "h1" ∅ [Soup.NavigableString body]].

Definition broken_env : Env :=
  mkEnv (Robots.Document (Some example_robots_txt)) example_grammar example_net
        broken_parser None example_reason (fun u => u).

(* ===================================================================== *)
(** * Part III: properties                                                *)
(* ===================================================================== *)

(** ** The program on small inputs *)
Section Examples.

Example strip_example : Soup.strip "  Latest news " = "Latest news"%string.
Proof. reflexivity. Qed.

(** A no-break space (C2 A0) in front and an em space (E2 80 83) behind
    are removed; the A0 that ends the letter a-grave (C3 A0) is kept,
    and so is the zero-width space (E2 80 8B). *)
Example strip_unicode_example :
  Soup.strip
    (String "194" (String "160"
       (String " " (String "v" (String "o" (String "i" (String "l"
          (String "195" (String "160"
             (String "226" (String "128" (String "139"
                (String "226" (String "128" (String "131" EmptyString)))))))))))))))
  = String "v" (String "o" (String "i" (String "l"
      (String "195" (String "160"
         (String "226" (String "128" (String "139" EmptyString)))))))).
Proof. by vm_compute. Qed.

Example page_urls_example :
  page_urls "https://example.com" 3 =
  ["https://example.com/page/1"; "https://example.com/page/2";
   "https://example.com/page/3"]%string.
Proof. reflexivity. Qed.

Example page_urls_empty_example : page_urls "https://example.com" 0 = [].
Proof. reflexivity. Qed.

Example extract_example :
  Soup.extract_data
    [Soup.Tag "html" ∅
       [Soup.Tag "head" ∅
          [Soup.Tag "meta" (<["name"%string := "description"%string]>
                             {["content"%string := "All the news"%string]}) []];
        Soup.Tag "body" ∅
          [Soup.Tag "h1" ∅ [Soup.NavigableString " Latest "; Soup.Tag "b" ∅
                              [Soup.NavigableString "news"]]]]]
    "https://example.com/page/1"
  = inr (mkItem "Latest news" "All the news" "https://example.com/page/1").
Proof. by vm_compute. Qed.

(** A field with a delimiter is quoted, a quote is doubled. *)
Example writerow_example :
  Csv.writerow [list_ascii_of_string "a,b"; [Csv.quotechar]; []] =
  [Csv.quotechar] ++ list_ascii_of_string "a,b" ++ [Csv.quotechar; Csv.delimiter] ++
  [Csv.quotechar; Csv.quotechar; Csv.quotechar; Csv.quotechar; Csv.delimiter] ++
  [Csv.CR; Csv.LF].
Proof. reflexivity. Qed.

(** A field with a line break spans two lines of the file and is read
    back whole. *)
Example reader_example :
  Csv.reader (Csv.file_lines
                (Csv.writerow [[Csv.LF; "x"%char]; list_ascii_of_string "y"]))
  = Some [[[Csv.LF; "x"%char]; list_ascii_of_string "y"]].
Proof. reflexivity. Qed.

Example upsert_example :
  Store.rows (Store._save_to_database (mkItem "t2" "d2" "u")
                (Store._save_to_database (mkItem "t1" "d1" "u") Store.empty_table))
  = [Store.mkRow 2 "t2" "d2" "u"].
Proof. reflexivity. Qed.

Example robots_example :
  Robots.can_fetch example_scraper.(robot_parser) "*" "https://example.com/page/3" = false /\
  Robots.can_fetch example_scraper.(robot_parser) "*" "https://example.com/page/4" = true.
Proof. split; reflexivity. Qed.

(** The synchronous fetcher on the page that answers 500: nothing is
    returned and the text of the [HTTPError] is logged. *)
Example fetch_page_example :
  fetch_page example_env example_scraper "https://example.com/page/2" example_world
  = (None,
     mkWorld ["https://example.com/page/2"%string]
             [LogError ("Error fetching https://example.com/page/2: " +:+
                        "500 Server Error: Internal Server Error for url: " +:+
                        "https://example.com/page/2")]
             Store.empty_table).
Proof. by vm_compute. Qed.

End Examples.

(** ** The store: upsert keyed on url *)
Section StoreFacts.
Import Store.

Lemma urls_of_insert t d u tb :
  urls_of (insert_or_replace t d u tb) =
  filter (fun v => v ≠ u) (urls_of tb) ++ [u].
Proof.
  unfold urls_of, insert_or_replace; simpl.
  rewrite fmap_app; simpl. f_equal.
  induction (rows tb) as [|r l IH]; simpl; [done|].
  rewrite !filter_cons. destruct (decide (row_url r ≠ u)); simpl;
    [f_equal|]; exact IH.
Qed.

Lemma insert_or_replace_unique t d u tb :
  unique_urls tb -> unique_urls (insert_or_replace t d u tb).
Proof.
  unfold unique_urls. intros Hnd. rewrite urls_of_insert.
  apply NoDup_app. split; [by apply NoDup_filter|]. split.
  - intros v Hv Hin. apply list_elem_of_filter in Hv as [Hne _].
    apply list_elem_of_singleton in Hin. done.
  - apply NoDup_singleton.
Qed.

Lemma save_all_unique items : forall tb,
  unique_urls tb -> unique_urls (foldl (fun acc it => _save_to_database it acc) tb items).
Proof.
  induction items as [|it items IH]; intros tb Hu; simpl; [done|].
  apply IH. by apply insert_or_replace_unique.
Qed.

Lemma select_after_insert t d u tb :
  select_by_url u (insert_or_replace t d u tb) = [(t, d)].
Proof.
  unfold select_by_url, insert_or_replace; simpl.
  rewrite filter_app, fmap_app.
  replace (filter (fun r => row_url r = u) (filter (fun r => row_url r ≠ u) (rows tb)))
    with (@nil Row).
  - rewrite filter_cons; simpl. destruct (decide (u = u)); done.
  - induction (rows tb) as [|r l IH]; [done|].
    rewrite filter_cons. destruct (decide (row_url r ≠ u)) as [Hne|Heq]; [|done].
    rewrite filter_cons. destruct (decide (row_url r = u)); done.
Qed.

Lemma select_other_insert t d u v tb :
  v ≠ u -> select_by_url v (insert_or_replace t d u tb) = select_by_url v tb.
Proof.
  intros Hne. unfold select_by_url, insert_or_replace; simpl.
  rewrite filter_app, fmap_app.
  rewrite filter_cons; simpl. destruct (decide (u = v)); [congruence|].
  rewrite filter_nil, app_nil_r. f_equal.
  induction (rows tb) as [|r l IH]; [done|].
  rewrite !filter_cons. destruct (decide (row_url r ≠ u)) as [Hr|Hr].
  - rewrite filter_cons. destruct (decide (row_url r = v)); by rewrite IH.
  - destruct (decide (row_url r = v)) as [Hv|Hv]; [|done].
    exfalso. apply Hr. congruence.
Qed.

(** C5. Upsert is keyed on url and the last writer wins: a table that
    satisfies its UNIQUE constraint still has at most one row per url
    after any sequence of upserts; upserting an item twice leaves exactly
    one row for its url, carrying its values; of two items with the same
    url only the title and description of the second can be retrieved. *)
Theorem upsert_last_writer_wins (tb : Table) :
  unique_urls tb ->
  (forall items,
      unique_urls (foldl (fun acc it => _save_to_database it acc) tb items)) /\
  (forall item,
      select_by_url (url item) (_save_to_database item (_save_to_database item tb))
      = [(title item, description item)]) /\
  (forall a b, url a = url b ->
      select_by_url (url a) (_save_to_database b (_save_to_database a tb))
      = [(title b, description b)]).
Proof.
  intros Hu. split; [|split].
  - intros items. by apply save_all_unique.
  - intros item. apply select_after_insert.
  - intros a b Hab. unfold _save_to_database at 1. rewrite Hab.
    apply select_after_insert.
Qed.

Lemma upsert_last_writer_wins_witness :
  unique_urls (_setup_database None) /\
  select_by_url "u"
    (_save_to_database (mkItem "t2" "d2" "u")
       (_save_to_database (mkItem "t1" "d1" "u") (_setup_database None)))
  = [("t2"%string, "d2"%string)].
Proof.
  assert (Hu : unique_urls (_setup_database None)) by apply NoDup_nil_2.
  split; [exact Hu|].
  exact (proj2 (proj2 (upsert_last_writer_wins _ Hu))
               (mkItem "t1" "d1" "u") (mkItem "t2" "d2" "u") eq_refl).
Defined.

End StoreFacts.

(** ** Extraction *)
Section SoupFacts.
Import Soup SoupSpec.

(** Induction on the parse tree, with the hypothesis for every child. *)
Lemma PageElement_tree_ind (P : PageElement -> Prop) :
  (forall s, P (NavigableString s)) ->
  (forall n a cs, Forall P cs -> P (Tag n a cs)) ->
  forall e, P e.
Proof.
  intros Hs Ht. fix IH 1. intros [n a cs|s]; [|apply Hs].
  apply Ht. induction cs as [|c cs IHcs]; constructor; [apply IH|exact IHcs].
Qed.

Lemma find_in_absent p e : ~ occurs_in p e -> find_in p e = None.
Proof.
  induction e as [s|n a cs IH] using PageElement_tree_ind; intros Hno; [done|].
  simpl. destruct (p n a) eqn:Hp.
  - exfalso. apply Hno. by constructor.
  - assert (Hcs : forall c, c ∈ cs -> ~ occurs_in p c).
    { intros c Hc Hoc. apply Hno. by eapply occurs_below. }
    clear Hno. induction IH as [|c cs Hc _ IHcs]; [done|].
    rewrite Hc by (apply Hcs; left). apply IHcs.
    intros c' Hc'. apply Hcs. by right.
Qed.

Lemma find_in_present p e r : find_in p e = Some r -> occurs_in p e.
Proof.
  revert r. induction e as [s|n a cs IH] using PageElement_tree_ind;
    intros r; simpl; [done|].
  destruct (p n a) eqn:Hp; [intros _; by constructor|].
  induction IH as [|c cs Hc _ IHcs]; [done|].
  destruct (find_in p c) as [r'|] eqn:Hf.
  - intros _. eapply occurs_below; [left|]. by eapply Hc.
  - intros Hr. specialize (IHcs Hr). inversion IHcs; subst; [congruence|].
    eapply occurs_below; [right; eassumption|done].
Qed.

Lemma find_absent p soup : ~ occurs p soup -> find p soup = None.
Proof.
  induction soup as [|c soup IH]; intros Hno; simpl; [done|].
  rewrite find_in_absent.
  - apply IH. intros (c' & Hc' & Hoc). apply Hno. exists c'. split; [by right|done].
  - intros Hoc. apply Hno. exists c. split; [left|done].
Qed.

Lemma find_present p soup r : find p soup = Some r -> occurs p soup.
Proof.
  induction soup as [|c soup IH]; simpl; [done|].
  destruct (find_in p c) as [r'|] eqn:Hf.
  - intros _. exists c. split; [left|]. by eapply find_in_present.
  - intros Hr. destruct (IH Hr) as (c' & Hc' & Hoc).
    exists c'. split; [by right|done].
Qed.

(** What [find] returns is a tag that meets the criteria. *)
Lemma find_in_meets p e r :
  find_in p e = Some r -> exists n a cs, r = Tag n a cs /\ p n a = true.
Proof.
  revert r. induction e as [s|n a cs IH] using PageElement_tree_ind;
    intros r; simpl; [done|].
  destruct (p n a) eqn:Hp; [intros [= <-]; eauto|].
  induction IH as [|c cs Hc _ IHcs]; [done|].
  destruct (find_in p c) as [r'|] eqn:Hf; [intros [= <-]; eauto|done].
Qed.

Lemma find_meets p soup r :
  find p soup = Some r -> exists n a cs, r = Tag n a cs /\ p n a = true.
Proof.
  induction soup as [|c soup IH]; simpl; [done|].
  destruct (find_in p c) as [r'|] eqn:Hf; [|done].
  intros [= <-]. by eapply find_in_meets.
Qed.

(** The title never raises, and is empty when the page has no [h1]. *)
Lemma extract_title_missing soup :
  ~ occurs is_h1 soup -> extract_title soup = EmptyString.
Proof. intros Hno. unfold extract_title. by rewrite find_absent. Qed.

(** With no [meta] tag named [description] anywhere in the page the
    extraction succeeds and the description is empty. *)
Lemma extract_data_no_meta soup u :
  ~ occurs is_meta_description soup ->
  extract_data soup u = inr (mkItem (extract_title soup) EmptyString u).
Proof.
  intros Hno. unfold extract_data, extract_description.
  by rewrite find_absent.
Qed.

(** The extraction raises exactly when the first [meta] tag named
    [description] has no [content] attribute. *)
Lemma extract_data_raises soup u e :
  extract_data soup u = inl e <->
  exists n a cs, find is_meta_description soup = Some (Tag n a cs) /\
                 a !! "content"%string = None /\ e = KeyError "content".
Proof.
  unfold extract_data, extract_description. split.
  - destruct (find is_meta_description soup) as [r|] eqn:Hf; [|done].
    destruct (find_meets _ _ _ Hf) as (n & a & cs & -> & _). simpl.
    destruct (a !! "content"%string) eqn:Ha; [done|].
    intros [= <-]. eauto 6.
  - intros (n & a & cs & -> & Ha & ->). simpl. by rewrite Ha.
Qed.

(** The url of an extracted item is the url it was given. *)
Lemma extract_data_url soup u item :
  extract_data soup u = inr item -> url item = u.
Proof.
  unfold extract_data. destruct (extract_description soup); [done|].
  by intros [= <-].
Qed.

(** C6. On the page [<meta name="description">], which has no [h1] and
    no description text, [extract_data] does not return an item with
    empty fields: it raises [KeyError('content')]. *)
Theorem extract_data_meta_without_content (u : string) :
  ~ occurs is_h1 meta_without_content /\
  find is_meta_description meta_without_content
    = Some (Tag "meta" {[ "name"%string := "description"%string ]} []) /\
  extract_data meta_without_content u = inl (KeyError "content").
Proof.
  split; [|split].
  - intros (c & Hc & Hoc). apply list_elem_of_singleton in Hc as ->.
    inversion Hoc as [n a cs Hp|n a cs c Hc _]; subst; [done|].
    by apply not_elem_of_nil in Hc.
  - by vm_compute.
  - by vm_compute.
Qed.

End SoupFacts.

(** ** The fetch phase *)
Section FetchFacts.
Variable E : Env.
Variable self : WebScraper.

Local Abbreviation allowed u := (Robots.can_fetch (robot_parser self) "*" u).

Lemma async_fetch_page_result u w :
  (async_fetch_page E self u w).1 = page_result E self u.
Proof.
  unfold page_result, async_fetch_page, async_fetch_page_begin.
  destruct (allowed u); simpl; [|done].
  by destruct (net E u).
Qed.

Lemma page_result_denied u : allowed u = false -> page_result E self u = None.
Proof.
  intros H. unfold page_result, async_fetch_page, async_fetch_page_begin.
  by rewrite H.
Qed.

Lemma resume_result u o w w0 :
  (async_fetch_page_resume u o w).1 = (async_fetch_page_resume u o w0).1.
Proof. by destruct o. Qed.

Lemma page_result_allowed u :
  allowed u = true ->
  page_result E self u = (async_fetch_page_resume u (net E u) (mkWorld [] [] Store.empty_table)).1.
Proof.
  intros H. unfold page_result, async_fetch_page, async_fetch_page_begin.
  rewrite H. simpl. apply resume_result.
Qed.

(** A denied url: the coroutine returns [None] at once, logs the warning
    and sends nothing. *)
Lemma async_fetch_page_denied u w :
  allowed u = false ->
  async_fetch_page E self u w = (None, emit (LogWarning (denied_msg u)) w).
Proof.
  intros H. unfold async_fetch_page, async_fetch_page_begin. by rewrite H.
Qed.

Variable urls : list string.
Variable w0 : World.

Lemma loop_inv_init : loop_inv E self urls w0 (mkLoop (replicate (length urls) Pending) w0).
Proof.
  split; simpl.
  - apply length_replicate.
  - intros i t Ht. apply lookup_replicate in Ht as [-> _]. exact I.
  - done.
  - auto.
  - intros i u r Ht. by apply lookup_replicate in Ht as [? _].
Qed.

Lemma loop_inv_step ev l l' :
  loop_inv E self urls w0 l -> exec_event E self urls ev l = Some l' -> loop_inv E self urls w0 l'.
Proof.
  intros [Hlen Htasks Hdb Hreq Hwarn] Hstep.
  destruct ev as [i|i]; simpl in Hstep;
    destruct (tasks l !! i) as [[| |r0]|] eqn:Hti; try done;
    destruct (urls !! i) as [u|] eqn:Hui; try done.
  - (* Start *)
    unfold async_fetch_page_begin in Hstep.
    destruct (allowed u) eqn:Hal; simpl in Hstep; injection Hstep as <-;
      split; simpl.
    + by rewrite length_insert.
    + intros j t Hj. destruct (decide (i = j)) as [<-|Hne].
      * rewrite list_lookup_insert_eq in Hj by (by eapply lookup_lt_Some).
        injection Hj as <-. simpl. eauto.
      * rewrite list_lookup_insert_ne in Hj by done. eauto.
    + done.
    + intros v Hv. apply elem_of_app in Hv as [Hv|Hv]; [auto|].
      apply list_elem_of_singleton in Hv as ->. right. split; [|done].
      by eapply list_elem_of_lookup_2.
    + intros j v r Hj Hv Hden. destruct (decide (i = j)) as [<-|Hne].
      * rewrite list_lookup_insert_eq in Hj by (by eapply lookup_lt_Some). done.
      * rewrite list_lookup_insert_ne in Hj by done. eauto.
    + by rewrite length_insert.
    + intros j t Hj. destruct (decide (i = j)) as [<-|Hne].
      * rewrite list_lookup_insert_eq in Hj by (by eapply lookup_lt_Some).
        injection Hj as <-. simpl. exists u. split; [done|].
        by rewrite page_result_denied.
      * rewrite list_lookup_insert_ne in Hj by done. eauto.
    + done.
    + auto.
    + intros j v r Hj Hv Hden. apply elem_of_app.
      destruct (decide (i = j)) as [<-|Hne].
      * right. rewrite Hui in Hv. injection Hv as <-. by left.
      * left. rewrite list_lookup_insert_ne in Hj by done. eauto.
  - (* Complete *)
    destruct (async_fetch_page_resume u (net E u) (world l)) as [r w'] eqn:Hres.
    injection Hstep as <-.
    destruct (Htasks _ _ Hti) as (u' & Hu' & Hal).
    rewrite Hui in Hu'. injection Hu' as <-.
    assert (Hr : r = page_result E self u).
    { rewrite page_result_allowed by done.
      rewrite (resume_result u (net E u) _ (world l)). by rewrite Hres. }
    assert (Hw : requests w' = requests (world l) /\ database w' = database (world l)
                 /\ forall x, x ∈ log (world l) -> x ∈ log w').
    { unfold async_fetch_page_resume in Hres.
      destruct (net E u); injection Hres as _ <-; simpl; [done|].
      split; [done|]. split; [done|]. intros x Hx. apply elem_of_app. by left. }
    destruct Hw as (Hwr & Hwd & Hwl).
    split; simpl.
    + by rewrite length_insert.
    + intros j t Hj. destruct (decide (i = j)) as [<-|Hne].
      * rewrite list_lookup_insert_eq in Hj by (by eapply lookup_lt_Some).
        injection Hj as <-. simpl. eauto.
      * rewrite list_lookup_insert_ne in Hj by done. eauto.
    + congruence.
    + rewrite Hwr. auto.
    + intros j v r' Hj Hv Hden. apply Hwl.
      destruct (decide (i = j)) as [<-|Hne].
      * rewrite Hui in Hv. injection Hv as <-. congruence.
      * rewrite list_lookup_insert_ne in Hj by done. eauto.
Qed.

Lemma loop_inv_schedule sched : forall l l',
  loop_inv E self urls w0 l -> exec_schedule E self urls sched l = Some l' -> loop_inv E self urls w0 l'.
Proof.
  induction sched as [|ev sched IH]; simpl; intros l l' Hinv Hrun.
  - by injection Hrun as <-.
  - destruct (exec_event E self urls ev l) as [l1|] eqn:Hev; [|done].
    eapply IH; [|exact Hrun]. by eapply loop_inv_step.
Qed.

(** [results] succeeds exactly on lists of finished E self tasks and keeps their
    order. *)
Lemma results_lookup ts pages :
  results ts = Some pages ->
  length pages = length ts /\
  forall i r, pages !! i = Some r -> ts !! i = Some (Done r).
Proof.
  revert pages. induction ts as [|t ts IH]; simpl; intros pages.
  - intros [= <-]. split; [done|]. intros i r. by rewrite lookup_nil.
  - destruct t as [| |r0]; try done.
    destruct (results ts) as [rs|] eqn:Hrs; [|done].
    intros [= <-]. destruct (IH rs eq_refl) as [Hlen Hlk].
    split; [simpl; by rewrite Hlen|].
    intros [|i] r; simpl; [by intros [= <-]|apply Hlk].
Qed.

(** Whatever the interleaving, [gather] returns the results in the order
    of the urls. *)
Lemma gather_pages sched pages w' :
  gather E self urls sched w0 = Some (pages, w') ->
  pages = page_result E self <$> urls.
Proof.
  unfold gather.
  destruct (exec_schedule E self urls sched _) as [l|] eqn:Hrun; [|done].
  destruct (results (tasks l)) as [ps|] eqn:Hres; [|done].
  intros [= <- <-].
  pose proof (loop_inv_schedule _ _ _ loop_inv_init Hrun) as [Hlen Htasks _ _ _].
  destruct (results_lookup _ _ Hres) as [Hplen Hplk].
  apply list_eq. intros i. rewrite list_lookup_fmap.
  destruct (ps !! i) as [r|] eqn:Hpi.
  - destruct (Htasks _ _ (Hplk _ _ Hpi)) as (u & Hu & ->). by rewrite Hu.
  - apply lookup_ge_None in Hpi. rewrite Hplen, Hlen in Hpi.
    apply lookup_ge_None in Hpi. by rewrite Hpi.
Qed.

Lemma gather_world sched pages w' :
  gather E self urls sched w0 = Some (pages, w') ->
  database w' = database w0 /\
  (forall v, v ∈ requests w' ->
             v ∈ requests w0 \/ (v ∈ urls /\ allowed v = true)) /\
  (forall u, u ∈ urls -> allowed u = false ->
             LogWarning (denied_msg u) ∈ log w').
Proof.
  unfold gather.
  destruct (exec_schedule E self urls sched _) as [l|] eqn:Hrun; [|done].
  destruct (results (tasks l)) as [ps|] eqn:Hres; [|done].
  intros [= <- <-].
  pose proof (loop_inv_schedule _ _ _ loop_inv_init Hrun) as [Hlen Htasks Hdb Hreq Hwarn].
  split; [done|]. split; [done|].
  intros u Hu Hden. apply list_elem_of_lookup in Hu as [i Hi].
  destruct (results_lookup _ _ Hres) as [Hplen Hplk].
  destruct (ps !! i) as [r|] eqn:Hpi.
  - eapply Hwarn; [by apply Hplk|done|done].
  - apply lookup_ge_None in Hpi. rewrite Hplen, Hlen in Hpi.
    apply lookup_lt_Some in Hi. lia.
Qed.

(** The number of requests in flight is at most the number of urls. *)
Lemma in_flight_le_length l : in_flight l <= length (tasks l).
Proof. unfold in_flight. apply List.filter_length_le. Qed.

(** *** The first-in first-out interleaving lets [gather] return *)

Lemma exec_schedule_app s1 s2 l :
  exec_schedule E self urls (s1 ++ s2) l =
  match exec_schedule E self urls s1 l with
  | Some l1 => exec_schedule E self urls s2 l1
  | None => None
  end.
Proof.
  revert l. induction s1 as [|ev s1 IH]; intros l; simpl; [done|].
  by destruct (exec_event E self urls ev l).
Qed.

Lemma start_prefix k :
  k <= length urls ->
  exists w, exec_schedule E self urls (Start <$> seq 0 k)
              (mkLoop (replicate (length urls) Pending) w0)
            = Some (mkLoop ((started self <$> take k urls) ++
                            replicate (length urls - k) Pending) w).
Proof.
  induction k as [|k IH]; intros Hk.
  - exists w0. simpl. by rewrite Nat.sub_0_r.
  - destruct IH as [w Hw]; [lia|].
    rewrite seq_S, fmap_app, exec_schedule_app, Hw. simpl.
    destruct (lookup_lt_is_Some_2 urls k) as [u Hu]; [lia|].
    assert (Hlen : length (started self <$> take k urls) = k).
    { rewrite length_fmap, length_take. lia. }
    rewrite lookup_app_r by lia. rewrite Hlen, Nat.sub_diag.
    replace (length urls - k) with (S (length urls - S k)) by lia.
    simpl. rewrite Hu.
    rewrite (take_S_r _ _ _ Hu), fmap_app. simpl.
    set (pre := started self <$> take k urls) in *.
    assert (Hins : forall t rest,
               <[k := t]> (pre ++ Pending :: rest) = (pre ++ [t]) ++ rest).
    { intros t rest. rewrite insert_app_r_alt by lia.
      rewrite Hlen, Nat.sub_diag. simpl. by rewrite <- app_assoc. }
    unfold async_fetch_page_begin.
    assert (Hst : started self u = if allowed u then InFlight else Done None) by done.
    rewrite Hst. destruct (allowed u); simpl; eexists; by rewrite Hins.
Qed.

Lemma complete_prefix k : forall w,
  k <= length urls ->
  exists w', exec_schedule E self urls
               (Complete <$> List.filter (permitted self urls) (seq 0 k))
               (mkLoop (started self <$> urls) w)
             = Some (mkLoop ((finished E self <$> take k urls) ++
                             (started self <$> drop k urls)) w').
Proof.
  induction k as [|k IH]; intros w Hk.
  - exists w. simpl. by rewrite drop_0.
  - destruct (IH w) as [w1 Hw1]; [lia|].
    destruct (lookup_lt_is_Some_2 urls k) as [u Hu]; [lia|].
    rewrite seq_S, List.filter_app, fmap_app, exec_schedule_app, Hw1.
    assert (Hlen : length (finished E self <$> take k urls) = k).
    { rewrite length_fmap, length_take. lia. }
    rewrite (take_S_r _ _ _ Hu), fmap_app, (drop_S _ _ _ Hu).
    simpl. unfold permitted at 1. rewrite Hu.
    destruct (allowed u) eqn:Hal; simpl.
    + rewrite lookup_app_r by lia. rewrite Hlen, Nat.sub_diag. simpl.
      unfold started at 1. rewrite Hal, Hu.
      destruct (async_fetch_page_resume u (net E u) w1) as [r w2] eqn:Hres.
      exists w2. do 2 f_equal.
      rewrite insert_app_r_alt by lia. rewrite Hlen, Nat.sub_diag. simpl.
      rewrite <- app_assoc. simpl. do 2 f_equal. unfold finished. f_equal.
      rewrite page_result_allowed by done.
      rewrite (resume_result u (net E u) _ w1). by rewrite Hres.
    + exists w1. do 2 f_equal. rewrite <- app_assoc. simpl. do 2 f_equal.
      unfold started, finished. rewrite Hal. by rewrite page_result_denied.
Qed.

Lemma results_finished l : results (finished E self <$> l) = Some (page_result E self <$> l).
Proof.
  induction l as [|u l IH]; [done|].
  rewrite !fmap_cons. cbn [results finished]. by rewrite IH.
Qed.

Lemma gather_fifo_returns :
  exists w', gather E self urls (fifo_schedule self urls) w0
             = Some (page_result E self <$> urls, w').
Proof.
  destruct (start_prefix (length urls)) as [w1 Hw1]; [lia|].
  destruct (complete_prefix (length urls) w1) as [w2 Hw2]; [lia|].
  exists w2. unfold gather, fifo_schedule.
  rewrite exec_schedule_app, Hw1.
  rewrite firstn_all, Nat.sub_diag, app_nil_r. rewrite Hw2.
  rewrite firstn_all, drop_all, app_nil_r. simpl.
  by rewrite results_finished.
Qed.

End FetchFacts.

(** ** The url sequence *)
Section UrlFacts.

Lemma str_inj a b : str a = str b -> a = b.
Proof.
  unfold str. intros Heq.
  assert (Hn : forall z, Z.to_int z <> Decimal.Pos Decimal.Nil /\
                         Z.to_int z <> Decimal.Neg Decimal.Nil).
  { intros [|p|p]; simpl; split; try discriminate;
      intros [= Hp]; by apply Unsigned.to_uint_nonnil in Hp. }
  apply DecimalZ.to_int_inj.
  pose proof (NilZero.isi _ (proj1 (Hn a)) (proj2 (Hn a))) as Ha.
  pose proof (NilZero.isi _ (proj1 (Hn b)) (proj2 (Hn b))) as Hb.
  rewrite Heq in Ha. congruence.
Qed.

Lemma page_url_inj base a b : page_url base a = page_url base b -> a = b.
Proof.
  unfold page_url. intros H.
  apply String.app_inj in H. apply String.app_inj in H. by apply str_inj.
Qed.

Lemma length_page_urls base max_pages :
  length (page_urls base max_pages) = Z.to_nat max_pages.
Proof. unfold page_urls, page_range. by rewrite !length_fmap, length_seq. Qed.

Lemma lookup_page_urls base max_pages i :
  i < Z.to_nat max_pages ->
  page_urls base max_pages !! i = Some (page_url base (Z.of_nat (S i))).
Proof.
  intros Hi. unfold page_urls, page_range.
  rewrite !list_lookup_fmap, lookup_seq_lt by done. done.
Qed.

Lemma NoDup_page_urls base max_pages : NoDup (page_urls base max_pages).
Proof.
  unfold page_urls, page_range. apply NoDup_fmap_2.
  - intros a b. apply page_url_inj.
  - apply NoDup_fmap_2; [intros a b; lia|]. apply NoDup_seq.
Qed.

End UrlFacts.

(** ** Extraction and persistence of the fetched pages *)
Section ProcessFacts.
Variable E : Env.

(** A page that is [None] or empty is skipped. *)
Lemma process_pages_skip u html rest all w :
  truthy html = false ->
  process_pages E ((u, html) :: rest) all w = process_pages E rest all w.
Proof. destruct html as [[|c s]|]; simpl; done. Qed.

Lemma process_pages_keep u body rest all w :
  truthy (Some body) = true ->
  process_pages E ((u, Some body) :: rest) all w =
  match Soup.extract_data (parse_page E body) u with
  | inl e => (inl e, w)
  | inr item => process_pages E rest (all ++ [item]) (save item w)
  end.
Proof. simpl. by intros ->. Qed.

(** When the loop finishes, the list holds one item per non-empty page,
    in page order, and exactly these items were saved. *)
Lemma process_pages_returns zipped : forall all w r w',
  process_pages E zipped all w = (inr r, w') ->
  exists items,
    r = all ++ items /\
    url <$> items = fst <$> List.filter (fun z => truthy z.2) zipped /\
    database w' = save_all (database w) items /\
    requests w' = requests w /\ log w' = log w.
Proof.
  induction zipped as [|[u html] rest IH]; intros all w r w' Hp.
  - injection Hp as <- <-. exists []. by rewrite app_nil_r.
  - destruct (truthy html) eqn:Ht.
    + destruct html as [body|]; [|done].
      rewrite process_pages_keep in Hp by done.
      destruct (Soup.extract_data (parse_page E body) u) as [e|item] eqn:Hx;
        [done|].
      destruct (IH _ _ _ _ Hp) as (items & -> & Hurls & Hdb & Hrq & Hlog).
      exists (item :: items). rewrite <- app_assoc. split; [done|].
      cbn [List.filter snd]. rewrite Ht. rewrite !fmap_cons. cbn [fst].
      rewrite Hurls, (extract_data_url _ _ _ Hx). done.
    + rewrite process_pages_skip in Hp by done.
      destruct (IH _ _ _ _ Hp) as (items & -> & Hurls & Hdb & Hrq & Hlog).
      exists items. cbn [List.filter snd]. by rewrite Ht.
Qed.

(** Rows are written only under the urls of non-empty pages, also when
    the loop is left by an exception. *)
Lemma process_pages_untouched zipped v : forall all w res w',
  process_pages E zipped all w = (res, w') ->
  (forall html, (v, html) ∈ zipped -> truthy html = false) ->
  Store.select_by_url v (database w') = Store.select_by_url v (database w).
Proof.
  induction zipped as [|[u html] rest IH]; intros all w res w' Hp Hv.
  - by injection Hp as _ <-.
  - assert (Hrest : forall h, (v, h) ∈ rest -> truthy h = false).
    { intros h Hh. apply Hv. by right. }
    destruct (truthy html) eqn:Ht.
    + destruct html as [body|]; [|done].
      rewrite process_pages_keep in Hp by done.
      destruct (Soup.extract_data (parse_page E body) u) as [e|item] eqn:Hx.
      * by injection Hp as _ <-.
      * rewrite (IH _ _ _ _ Hp Hrest). simpl.
        unfold Store._save_to_database.
        apply select_other_insert. rewrite (extract_data_url _ _ _ Hx).
        intros ->. specialize (Hv (Some body)). rewrite Ht in Hv.
        by discriminate Hv; left.
    + rewrite process_pages_skip in Hp by done. eauto.
Qed.

(** The outcome of the loop depends on the world only through the
    database. *)
Lemma process_pages_world zipped : forall all w1 w2,
  database w1 = database w2 ->
  (process_pages E zipped all w1).1 = (process_pages E zipped all w2).1 /\
  database (process_pages E zipped all w1).2 =
  database (process_pages E zipped all w2).2.
Proof.
  induction zipped as [|[u html] rest IH]; intros all w1 w2 Hdb; [done|].
  destruct (truthy html) eqn:Ht.
  - destruct html as [body|]; [|done].
    rewrite !process_pages_keep by done.
    destruct (Soup.extract_data (parse_page E body) u) as [e|item]; [done|].
    apply IH. simpl. by rewrite Hdb.
  - rewrite !process_pages_skip by done. by apply IH.
Qed.

Lemma process_pages_app_skip z1 u html html' z2 : forall all w,
  truthy html = false -> truthy html' = false ->
  process_pages E (z1 ++ (u, html) :: z2) all w =
  process_pages E (z1 ++ (u, html') :: z2) all w.
Proof.
  induction z1 as [|[v h] z1 IH]; intros all w H1 H2.
  - simpl app. by rewrite !process_pages_skip.
  - rewrite <- !app_comm_cons. destruct (truthy h) eqn:Ht.
    + destruct h as [body|]; [|done].
      rewrite !process_pages_keep by done.
      destruct (Soup.extract_data (parse_page E body) v); [done|]. by apply IH.
    + rewrite !process_pages_skip by done. by apply IH.
Qed.

(** The loop sends no request and logs nothing. *)
Lemma process_pages_effects zipped : forall all w res w',
  process_pages E zipped all w = (res, w') ->
  requests w' = requests w /\ log w' = log w.
Proof.
  induction zipped as [|[v h] z IH]; intros all w res w' Hp.
  - by injection Hp as _ <-.
  - destruct (truthy h) eqn:Ht.
    + destruct h as [body|]; [|done].
      rewrite process_pages_keep in Hp by done.
      destruct (Soup.extract_data _ v); [by injection Hp as _ <-|].
      by destruct (IH _ _ _ _ Hp) as [-> ->].
    + rewrite process_pages_skip in Hp by done. eauto.
Qed.

(** With no non-empty page the loop returns the list unchanged. *)
Lemma process_pages_nothing zipped : forall all w,
  List.filter (fun z : string * option string => truthy z.2) zipped = [] ->
  process_pages E zipped all w = (inr all, w).
Proof.
  induction zipped as [|[v h] z IH]; intros all w Hnone; [done|].
  cbn [List.filter snd] in Hnone. destruct (truthy h) eqn:Ht; [done|].
  rewrite process_pages_skip by done. by apply IH.
Qed.

End ProcessFacts.

(** ** Properties of the fetch phase and of [async_scrape] *)
Section PipelineFacts.
Variable E : Env.
Variable self : WebScraper.

Local Abbreviation allowed u := (Robots.can_fetch (robot_parser self) "*" u).

(** When every url is denied the run returns the empty list and sends
    nothing. *)
Lemma async_scrape_deny_all sched max_pages w res w' :
  (forall u, allowed u = false) ->
  async_scrape E self sched max_pages w = Some (res, w') ->
  res = inr [] /\ forall v, v ∈ requests w' -> v ∈ requests w.
Proof.
  intros Hdeny. unfold async_scrape.
  set (urls := page_urls (base_url self) max_pages).
  destruct (gather E self urls sched w) as [[pages w1]|] eqn:Hg; [|done].
  pose proof (gather_pages _ _ _ _ _ _ _ Hg) as ->.
  destruct (gather_world _ _ _ _ _ _ _ Hg) as (_ & Hreq & _).
  rewrite process_pages_nothing.
  - intros [= <- <-]. split; [done|].
    intros v Hv. destruct (Hreq _ Hv) as [?|[_ Hal]]; [done|].
    by rewrite Hdeny in Hal.
  - clear -Hdeny. induction urls as [|u l IH]; [done|].
    rewrite fmap_cons. cbn [zip zip_with List.filter snd].
    by rewrite page_result_denied.
Qed.

(** C1. A url that the rule set denies is never requested: the coroutine
    returns [None] without sending anything and logs a warning, and in
    every interleaving of [gather] no request for it is added, its result
    is [None], and every url of the sequence still gets its own result. *)
Theorem policy_denied_never_requested
        (urls : list string) (sched : list Event) (w : World)
        (pages : list (option string)) (w' : World) (u : string) :
  gather E self urls sched w = Some (pages, w') ->
  u ∈ urls ->
  allowed u = false ->
  async_fetch_page E self u w = (None, emit (LogWarning (denied_msg u)) w) /\
  (u ∉ requests w -> u ∉ requests w') /\
  (forall i, urls !! i = Some u -> pages !! i = Some None) /\
  LogWarning (denied_msg u) ∈ log w' /\
  pages = page_result E self <$> urls.
Proof.
  intros Hg Hu Hden.
  pose proof (gather_pages _ _ _ _ _ _ _ Hg) as Hpages.
  destruct (gather_world _ _ _ _ _ _ _ Hg) as (_ & Hreq & Hwarn).
  split; [by apply async_fetch_page_denied|].
  split; [|split; [|split]].
  - intros Hnot Hin. destruct (Hreq _ Hin) as [?|[_ Hal]]; [done|congruence].
  - intros i Hi. rewrite Hpages, list_lookup_fmap, Hi. simpl.
    by rewrite page_result_denied.
  - by apply Hwarn.
  - done.
Qed.

(** C2. [gather] returns (the first-in first-out interleaving is one
    that lets it), and in every interleaving the list it returns has one
    result per url, the i-th being the result for the i-th url; the items
    returned and the rows written by [async_scrape] are therefore the same
    in every interleaving. *)
Theorem gather_preserves_order (urls : list string) (w : World) :
  (exists w', gather E self urls (fifo_schedule self urls) w
              = Some (page_result E self <$> urls, w')) /\
  (forall sched pages w',
      gather E self urls sched w = Some (pages, w') ->
      length pages = length urls /\
      forall i u, urls !! i = Some u -> pages !! i = Some (page_result E self u)) /\
  (forall max_pages s1 s2 r1 r2,
      async_scrape E self s1 max_pages w = Some r1 ->
      async_scrape E self s2 max_pages w = Some r2 ->
      r1.1 = r2.1 /\ database r1.2 = database r2.2).
Proof.
  split; [apply gather_fifo_returns|]. split.
  - intros sched pages w' Hg.
    rewrite (gather_pages _ _ _ _ _ _ _ Hg). split; [by rewrite length_fmap|].
    intros i u Hi. by rewrite list_lookup_fmap, Hi.
  - intros max_pages s1 s2 r1 r2. unfold async_scrape.
    destruct (gather E self _ s1 w) as [[p1 w1]|] eqn:H1; [|done].
    destruct (gather E self _ s2 w) as [[p2 w2]|] eqn:H2; [|done].
    intros [= <-] [= <-].
    rewrite (gather_pages _ _ _ _ _ _ _ H1), (gather_pages _ _ _ _ _ _ _ H2).
    apply process_pages_world.
    destruct (gather_world _ _ _ _ _ _ _ H1) as (-> & _).
    by destruct (gather_world _ _ _ _ _ _ _ H2) as (-> & _).
Qed.

(** C8. For [max_pages >= 1] the urls are [{base}/page/1] to
    [{base}/page/{max_pages}] in ascending order: exactly [max_pages] of
    them, pairwise distinct, and [async_scrape] sends no request for any
    other url. *)
Theorem page_urls_range (max_pages : Z) :
  (1 <= max_pages)%Z ->
  let urls := page_urls (base_url self) max_pages in
  Z.of_nat (length urls) = max_pages /\
  NoDup urls /\
  (forall k, (1 <= k <= max_pages)%Z ->
             urls !! (Z.to_nat (k - 1)) = Some (base_url self +:+ "/page/" +:+ str k)) /\
  (forall sched w res w',
      async_scrape E self sched max_pages w = Some (res, w') ->
      forall u, u ∈ requests w' -> u ∈ requests w \/ u ∈ urls).
Proof.
  intros Hmax urls. split; [|split; [|split]].
  - unfold urls. rewrite length_page_urls. lia.
  - apply NoDup_page_urls.
  - intros k Hk. unfold urls. rewrite lookup_page_urls by lia.
    unfold page_url. do 4 f_equal. lia.
  - intros sched w res w'. unfold async_scrape. fold urls.
    destruct (gather E self urls sched w) as [[pages w1]|] eqn:Hg; [|done].
    intros [= Hp] u Hu.
    destruct (gather_world _ _ _ _ _ _ _ Hg) as (_ & Hreq & _).
    destruct (process_pages_effects _ _ _ _ _ _ Hp) as [Hrq _].
    rewrite Hrq in Hu. destruct (Hreq _ Hu) as [?|[? _]]; auto.
Qed.

(** C10. A page whose body is the empty string is handled like a page
    that was not fetched: the loop of [async_scrape] does the same with
    [Some ""] as with [None], no item with that url is returned and no
    row is written under it. *)
Theorem empty_body_treated_as_failure
        (sched : list Event) (max_pages : Z) (w : World)
        (res : Exn + list ScrapedItem) (w' : World) (u : string) (status : Z) :
  async_scrape E self sched max_pages w = Some (res, w') ->
  net E u = HttpResponse status EmptyString ->
  (forall z1 z2 all w1,
      process_pages E (z1 ++ (u, Some EmptyString) :: z2) all w1 =
      process_pages E (z1 ++ (u, None) :: z2) all w1) /\
  (forall items item, res = inr items -> item ∈ items -> url item <> u) /\
  Store.select_by_url u (database w') = Store.select_by_url u (database w).
Proof.
  intros Hrun Hnet. split; [intros; by apply process_pages_app_skip|].
  unfold async_scrape in Hrun.
  set (urls := page_urls (base_url self) max_pages) in *.
  destruct (gather E self urls sched w) as [[pages w1]|] eqn:Hg; [|done].
  injection Hrun as Hp.
  pose proof (gather_pages _ _ _ _ _ _ _ Hg) as ->.
  destruct (gather_world _ _ _ _ _ _ _ Hg) as (Hdb & _).
  assert (Hu : forall html, (u, html) ∈ zip urls (page_result E self <$> urls) ->
                            truthy html = false).
  { intros html Hin. apply list_elem_of_lookup in Hin as [i Hi].
    apply lookup_zip_with_Some in Hi as (v & h & [= <- <-] & Hv & Hh).
    rewrite list_lookup_fmap, Hv in Hh. injection Hh as <-.
    unfold page_result, async_fetch_page, async_fetch_page_begin.
    destruct (allowed u); simpl; [|done]. by rewrite Hnet. }
  split.
  - intros items item -> Hin Hurl.
    destruct (process_pages_returns _ _ _ _ _ _ Hp) as (its & Hits & Hurls & _).
    simpl in Hits. subst its.
    assert (Hmem : url item ∈ url <$> items) by (by apply list_elem_of_fmap_2).
    rewrite Hurls in Hmem. apply list_elem_of_fmap in Hmem as ([v h] & Hv & Hz).
    apply list_elem_of_In, List.filter_In in Hz as [Hz Ht].
    apply list_elem_of_In in Hz. simpl in *. subst v. rewrite Hurl in Hz.
    rewrite (Hu _ Hz) in Ht. done.
  - rewrite <- Hdb. by eapply process_pages_untouched.
Qed.

End PipelineFacts.
(** ** The requests in flight *)
Section ConnectorFacts.
Variable E : Env.
Variable self : WebScraper.
Variable urls : list string.

Local Abbreviation allowed u := (Robots.can_fetch (robot_parser self) "*" u).



Lemma exec_schedule_connector_app s1 s2 l :
  exec_schedule_connector E self urls (s1 ++ s2) l =
  match exec_schedule_connector E self urls s1 l with
  | Some l1 => exec_schedule_connector E self urls s2 l1
  | None => None
  end.
Proof.
  revert l. induction s1 as [|ev s1 IH]; intros l; simpl; [done|].
  by destruct (exec_event_connector E self urls ev l).
Qed.




Lemma in_flight_pending n : length (List.filter is_in_flight (replicate n Pending)) = 0.
Proof. by induction n. Qed.



(** The connector never stops the run: taken one by one, the requests
    are all answered and [gather] has its results. *)
Lemma one_by_one_prefix (w0 : World) k :
  k <= length urls ->
  exists w, exec_schedule_connector E self urls
              (flat_map (fun i => Start i :: if permitted self urls i
                                             then [Complete i] else [])
                        (seq 0 k))
              (mkLoop (replicate (length urls) Pending) w0)
            = Some (mkLoop ((finished E self <$> take k urls) ++
                            replicate (length urls - k) Pending) w).
Proof.
  induction k as [|k IH]; intros Hk.
  - exists w0. simpl. by rewrite Nat.sub_0_r.
  - destruct IH as [w Hw]; [lia|].
    rewrite seq_S, flat_map_app, exec_schedule_connector_app, Hw.
    destruct (lookup_lt_is_Some_2 urls k) as [u Hu]; [lia|].
    assert (Hlen : length (finished E self <$> take k urls) = k).
    { rewrite length_fmap, length_take. lia. }
    set (pre := finished E self <$> take k urls) in *.
    assert (Hfl : in_flight (mkLoop (pre ++ replicate (length urls - k) Pending) w) = 0).
    { unfold in_flight. cbn [tasks]. rewrite List.filter_app, length_app, in_flight_pending.
      unfold pre. clear. induction (take k urls) as [|v l IHl]; [done|].
      rewrite fmap_cons. simpl. exact IHl. }
    assert (Hins : forall t0 t rest,
               <[k := t]> (pre ++ t0 :: rest) = (pre ++ [t]) ++ rest).
    { intros t0 t rest. rewrite insert_app_r_alt by lia.
      rewrite Hlen, Nat.sub_diag. simpl. by rewrite <- app_assoc. }
    replace (length urls - k) with (S (length urls - S k)) in * by lia.
    rewrite (take_S_r _ _ _ Hu), fmap_app. fold pre.
    cbn [flat_map app exec_schedule_connector exec_event_connector].
    change (0 + k) with k. rewrite Hfl.
    change (Connector.available 0 =? 0) with false. rewrite andb_false_r.
    assert (Hperm : permitted self urls k = allowed u)
      by (unfold permitted; by rewrite Hu).
    rewrite Hperm.
    cbn [exec_event tasks world replicate].
    rewrite lookup_app_r by lia. rewrite Hlen, Nat.sub_diag. cbn [lookup list_lookup].
    rewrite Hu. unfold async_fetch_page_begin.
    destruct (allowed u) eqn:Hal; cbn [negb].
    + rewrite Hins, app_nil_r.
      cbn [exec_schedule_connector exec_event_connector exec_event tasks world].
      rewrite lookup_app_l by (rewrite length_app; simpl; lia).
      rewrite lookup_app_r by lia. rewrite Hlen, Nat.sub_diag. cbn [lookup list_lookup].
      rewrite Hu.
      destruct (async_fetch_page_resume u (net E u) (send_request u w)) as [r w2] eqn:Hres.
      exists w2. do 2 f_equal.
      rewrite <- (app_assoc pre [InFlight]). cbn [app]. rewrite Hins. do 2 f_equal.
      cbn [fmap list_fmap]. unfold finished. do 2 f_equal.
      rewrite page_result_allowed by done.
      rewrite (resume_result u (net E u) _ (send_request u w)). by rewrite Hres.
    + rewrite Hins, app_nil_r. cbn [exec_schedule_connector].
      eexists. do 3 f_equal. cbn [fmap list_fmap]. unfold finished.
      by rewrite page_result_denied.
Qed.

Lemma one_by_one_returns (w0 : World) :
  exists l, exec_schedule_connector E self urls (one_by_one self urls)
              (mkLoop (replicate (length urls) Pending) w0) = Some l /\
            results (tasks l) = Some (page_result E self <$> urls).
Proof.
  destruct (one_by_one_prefix w0 (length urls)) as [w Hw]; [lia|].
  eexists. split; [exact Hw|]. cbn [tasks].
  rewrite firstn_all, Nat.sub_diag, app_nil_r. apply results_finished.
Qed.

End ConnectorFacts.

Section ConnectorInstances.


End ConnectorInstances.

(** ** The statements above at the concrete run *)
Section Instances.

Local Abbreviation page n := ("https://example.com/page/" +:+ n)%string.

Lemma policy_denied_never_requested_witness :
  exists pages w',
    gather example_env example_scraper (page_urls main_base_url 5)
           example_schedule example_world = Some (pages, w') /\
    ((page "3") ∉ requests w') /\ pages !! 2 = Some None.
Proof.
  destruct (gather example_env example_scraper (page_urls main_base_url 5)
                   example_schedule example_world) as [[pages w']|] eqn:Hg;
    [|by vm_compute in Hg].
  exists pages, w'. split; [done|].
  destruct (policy_denied_never_requested example_env example_scraper
              _ _ _ _ _ (page "3") Hg) as (_ & Hreq & Hres & _).
  - by apply (list_elem_of_lookup_2 _ 2).
  - by vm_compute.
  - split; [apply Hreq; apply not_elem_of_nil|by apply Hres].
Defined.

Lemma gather_preserves_order_witness :
  exists pages w',
    gather example_env example_scraper (page_urls main_base_url 5)
           example_schedule example_world = Some (pages, w') /\
    length pages = 5 /\ pages !! 0 = Some (Some "welcome"%string).
Proof.
  destruct (gather example_env example_scraper (page_urls main_base_url 5)
                   example_schedule example_world) as [[pages w']|] eqn:Hg;
    [|by vm_compute in Hg].
  exists pages, w'. split; [done|].
  destruct (gather_preserves_order example_env example_scraper
              (page_urls main_base_url 5) example_world) as (_ & Hord & _).
  destruct (Hord _ _ _ Hg) as [Hlen Hlk].
  split; [exact Hlen|]. by rewrite (Hlk 0 (page "1")).
Defined.

Lemma page_urls_range_witness :
  (1 <= 5)%Z /\
  page_urls main_base_url 5 = [page "1"; page "2"; page "3"; page "4"; page "5"] /\
  NoDup (page_urls main_base_url 5).
Proof.
  split; [lia|]. split; [by vm_compute|].
  destruct (page_urls_range example_env example_scraper 5 ltac:(lia))
    as (_ & Hnd & _).
  exact Hnd.
Defined.

Lemma empty_body_treated_as_failure_witness :
  exists res w',
    async_scrape example_env example_scraper example_schedule 5 example_world
    = Some (res, w') /\
    Store.select_by_url (page "4") (database w') = [].
Proof.
  destruct (async_scrape example_env example_scraper example_schedule 5
              example_world) as [[res w']|] eqn:Hrun; [|by vm_compute in Hrun].
  exists res, w'. split; [done|].
  destruct (empty_body_treated_as_failure example_env example_scraper
              _ _ _ _ _ (page "4") 200 Hrun) as (_ & _ & Hdb).
  - by vm_compute.
  - exact Hdb.
Defined.

(** The asynchronous fetcher returns the body whatever the status. *)
Lemma async_fetch_page_ignores_status E self u status body :
  Robots.can_fetch (robot_parser self) "*" u = true ->
  net E u = HttpResponse status body ->
  page_result E self u = Some body.
Proof.
  intros Hal Hnet. rewrite page_result_allowed by done. by rewrite Hnet.
Qed.

(** The synchronous fetcher returns [None] for a 4xx or 5xx status. *)
Lemma fetch_page_raises_for_status E self u status body w :
  net E u = HttpResponse status body ->
  (400 <= status < 600)%Z ->
  (fetch_page E self u w).1 = None.
Proof.
  intros Hnet Hst. unfold fetch_page.
  destruct (Robots.can_fetch _ _ _); simpl; [|done].
  rewrite Hnet. unfold raise_for_status.
  replace (400 <=? status)%Z with true by lia.
  replace (status <? 600)%Z with true by lia. done.
Qed.

(** C3. Page 2 answers with status 500 and a body. The run completes with
    exit code 0, but the page is not dropped: an item extracted from the
    error page is in the returned list and in the database. [fetch_page],
    which calls [raise_for_status], returns [None] for the same url. *)
Theorem http_error_page_is_scraped :
  net example_env (page "2") = HttpResponse 500 "<h1>Internal Server Error</h1>" /\
  (exists run,
      main example_env example_schedule = Some run /\
      exit_code run = 0%Z /\
      results_of run = [mkItem "" "" (page "1");
                        mkItem "Internal Server Error" "" (page "2")] /\
      exists w csv, run = Completed (results_of run) w csv /\
        Store.select_by_url (page "2") (database w)
        = [("Internal Server Error"%string, ""%string)]) /\
  (fetch_page example_env example_scraper (page "2") example_world).1 = None.
Proof.
  split; [by vm_compute|]. split; [|by vm_compute].
  destruct (main example_env example_schedule) as [run|] eqn:Hm;
    [|by vm_compute in Hm].
  vm_compute in Hm. injection Hm as <-.
  eexists. split; [reflexivity|]. split; [reflexivity|]. split; [by vm_compute|].
  eexists _, _. split; [reflexivity|]. by vm_compute.
Qed.

End Instances.

(** ** Loading the exclusion policy *)
Section PolicyFacts.

(** C4, counterexample. With a 404 for robots.txt the constructor does not
    raise, [can_fetch] permits every url, and the run requests all five
    pages. *)
Lemma robots_not_found_is_permissive :
  ~ aborts_when_unavailable not_found_env all_answered /\
  (exists self w, __init__ not_found_env main_base_url = inr (self, w) /\
                  forall u, Robots.can_fetch (robot_parser self) "*" u = true) /\
  (exists run, main not_found_env all_answered = Some run /\
               length (requests_of run) = 5).
Proof.
  split; [|split].
  - intros Hab. destruct (Hab I) as [e He]. by vm_compute in He.
  - eexists _, _. split; [reflexivity|]. done.
  - eexists. split; [by vm_compute|]. by vm_compute.
Qed.

Lemma read_http_error grammar code u :
  exists p, Robots.read grammar (Robots.HTTPError code) Robots.new = inr p /\
            Robots.can_fetch p "*" u = sets_allow_all code.
Proof.
  unfold Robots.read, sets_allow_all.
  destruct ((code =? 401) || (code =? 403))%Z; [by eexists|].
  destruct ((400 <=? code) && (code <? 500))%Z; by eexists.
Qed.

(** C4 (amended). When robots.txt cannot be retrieved at the transport
    level, or its bytes are not UTF-8, the constructor raises and the run
    is aborted before any page is requested. When the server answers the
    robots.txt request with an error status, the constructor returns: for
    401, 403 and every status outside 400..499 each url is denied and the
    run requests nothing; for any other 4xx status each url is
    permitted. *)
Theorem policy_load_outcomes (E : Env) :
  (robots_txt E = Robots.URLError \/ robots_txt E = Robots.Document None ->
   forall sched, exists e, main E sched = Some (Aborted e) /\
                           requests_of (Aborted e) = []) /\
  (forall code, robots_txt E = Robots.HTTPError code ->
     exists self w,
       __init__ E main_base_url = inr (self, w) /\ requests w = [] /\
       (forall u, Robots.can_fetch (robot_parser self) "*" u = sets_allow_all code) /\
       (sets_allow_all code = false ->
        forall sched run, main E sched = Some run ->
                          exit_code run = 0%Z /\ requests_of run = [] /\
                          results_of run = [])).
Proof.
  split.
  - intros Hr sched. unfold main, __init__.
    destruct Hr as [-> | ->]; simpl; eexists; split; reflexivity.
  - intros code Hr.
    unfold main, __init__. rewrite Hr.
    destruct (Robots.read (grammar E) (Robots.HTTPError code) Robots.new)
      as [e|p] eqn:Hread.
    { destruct (read_http_error (grammar E) code EmptyString) as (p & Hp & _).
      congruence. }
    eexists _, _. split; [reflexivity|]. split; [done|].
    assert (Hcf : forall u, Robots.can_fetch p "*" u = sets_allow_all code).
    { intros u. destruct (read_http_error (grammar E) code u) as (p' & Hp' & Hc).
      congruence. }
    split; [exact Hcf|].
    intros Hdeny sched run.
    destruct (async_scrape E _ sched 5 _) as [[res w']|] eqn:Hrun; [|done].
    apply async_scrape_deny_all in Hrun as [-> Hreq].
    + intros [= <-]. split; [done|]. split; [|done]. simpl.
      destruct (requests w') as [|v rq]; [done|].
      specialize (Hreq v ltac:(left)). by apply not_elem_of_nil in Hreq.
    + intros u. cbn [robot_parser]. by rewrite Hcf.
Qed.

Lemma policy_load_outcomes_witness :
  robots_txt forbidden_env = Robots.HTTPError 403 /\
  exists self w,
    __init__ forbidden_env main_base_url = inr (self, w) /\
    Robots.can_fetch (robot_parser self) "*" "https://example.com/page/1" = false.
Proof.
  split; [reflexivity|].
  destruct (proj2 (policy_load_outcomes forbidden_env) 403%Z eq_refl)
    as (self & w & Hinit & _ & Hcf & _).
  exists self, w. split; [exact Hinit|]. by rewrite Hcf.
Defined.

End PolicyFacts.

(** ** The csv export read back *)
Section CsvFacts.
Import Csv CsvStream.

(** *** The lines of the file as one stream *)

Lemma line_tokens_cons l ls :
  line_tokens (l :: ls) = (Some <$> l) ++ None :: line_tokens ls.
Proof. unfold line_tokens. rewrite fmap_cons. simpl. by rewrite <- app_assoc. Qed.

Lemma line_tokens_split_acc cs : forall cur,
  line_tokens (split_acc cur cs) = (Some <$> cur) ++ tk (non_empty cur) cs.
Proof.
  induction cs as [cs IH] using (induction_ltof1 _ (@length ascii)).
  unfold ltof in IH. intros cur. destruct cs as [|c rest].
  - destruct cur; [done|]. cbn [split_acc tk non_empty].
    rewrite line_tokens_cons. done.
  - cbn [split_acc tk]. destruct (Ascii.eqb c LF).
    { rewrite line_tokens_cons, IH by (simpl; lia).
      by rewrite fmap_app, <- !app_assoc. }
    destruct (Ascii.eqb c CR).
    + destruct rest as [|c' rest'].
      { rewrite line_tokens_cons. cbn [split_acc].
        by rewrite fmap_app, <- !app_assoc. }
      destruct (Ascii.eqb c' LF).
      * rewrite line_tokens_cons, IH by (simpl; lia).
        by rewrite fmap_app, <- !app_assoc.
      * rewrite line_tokens_cons, IH by (simpl; lia).
        by rewrite fmap_app, <- !app_assoc.
    + rewrite IH by (simpl; lia). rewrite fmap_app, <- app_assoc.
      replace (non_empty (cur ++ [c])) with true by (by destruct cur). done.
Qed.

Lemma run_line line : forall r ts,
  run r ((Some <$> line) ++ None :: ts) =
  match feed_line r line with
  | None => None
  | Some r' =>
      if is_start_record (state r') then
        match run parse_reset ts with
        | Some rows => Some (fields r' :: rows)
        | None => None
        end
      else run r' ts
  end.
Proof.
  induction line as [|c line IH]; intros r ts.
  - unfold feed_line. simpl. by destruct (parse_process_char r None).
  - rewrite fmap_cons. unfold feed_line. cbn [app run feed].
    destruct (parse_process_char r (Some c)) as [r1|]; [|done].
    rewrite IH. done.
Qed.

Lemma reader_from_run lines : forall r,
  reader_from r lines = run r (line_tokens lines).
Proof.
  induction lines as [|line lines IH]; intros r; [done|].
  rewrite line_tokens_cons, run_line. cbn [reader_from].
  destruct (feed_line r line) as [r'|]; [|done].
  rewrite !IH. done.
Qed.

Lemma reader_file cs : reader (file_lines cs) = run parse_reset (tk false cs).
Proof.
  unfold reader, file_lines. by rewrite reader_from_run, line_tokens_split_acc.
Qed.

(** *** One step of the parser *)

Lemma special_false c :
  special c = false ->
  Ascii.eqb c delimiter = false /\ Ascii.eqb c quotechar = false /\
  Ascii.eqb c CR = false /\ Ascii.eqb c LF = false.
Proof.
  unfold special. simpl.
  destruct (Ascii.eqb c delimiter), (Ascii.eqb c quotechar),
    (Ascii.eqb c CR), (Ascii.eqb c LF); done.
Qed.

Lemma chars_distinct :
  Ascii.eqb quotechar LF = false /\ Ascii.eqb quotechar CR = false /\
  Ascii.eqb quotechar delimiter = false /\ Ascii.eqb delimiter LF = false /\
  Ascii.eqb delimiter CR = false /\ Ascii.eqb delimiter quotechar = false /\
  Ascii.eqb CR LF = false /\ Ascii.eqb CR quotechar = false /\
  Ascii.eqb CR delimiter = false /\ Ascii.eqb LF CR = false /\
  Ascii.eqb LF quotechar = false /\ Ascii.eqb LF delimiter = false.
Proof. repeat split. Qed.

Ltac csv_step :=
  repeat first
    [ progress cbn [run parse_process_char start_field state field fields
                    parse_add_char parse_save_field set_state ends_line
                    after_end is_newline is_start_record is_in_quoted
                    orb andb negb]
    | progress unfold parse_add_char, parse_save_field, set_state, start_field,
                      is_newline, ends_line, after_end
    | rewrite Ascii.eqb_refl
    | rewrite (proj1 chars_distinct)
    | match goal with
      | H : Ascii.eqb ?a ?b = _ |- context [Ascii.eqb ?a ?b] => rewrite H
      end ].

Lemma tk_plain b c X :
  Ascii.eqb c LF = false -> Ascii.eqb c CR = false ->
  tk b (c :: X) = Some c :: tk true X.
Proof. intros H1 H2. cbn [tk]. by rewrite H1, H2. Qed.

Lemma tk_crlf b X : tk b (CR :: LF :: X) = Some CR :: Some LF :: None :: tk false X.
Proof. done. Qed.

(** Inside a quoted field every character but the quote is taken as it
    is, line ends included. *)
Lemma quoted_char c fld flds b X :
  Ascii.eqb c quotechar = false ->
  exists b', run (mkReader IN_QUOTED_FIELD fld flds) (tk b (c :: X)) =
             run (mkReader IN_QUOTED_FIELD (fld ++ [c]) flds) (tk b' X).
Proof.
  intros Hq. cbn [tk]. destruct (Ascii.eqb c LF) eqn:HLF.
  { exists false. by csv_step. }
  destruct (Ascii.eqb c CR) eqn:HCR.
  - destruct X as [|c' X'].
    { exists false. by csv_step. }
    destruct (Ascii.eqb c' LF) eqn:HLF'.
    + exists true. cbn [tk]. rewrite HLF'. by csv_step.
    + exists false. by csv_step.
  - exists true. by csv_step.
Qed.

(** *** A field *)

Lemma join_append_data_cons c s :
  (join_append_data (c :: s)).2 =
  if Ascii.eqb c quotechar then quotechar :: c :: (join_append_data s).2
  else c :: (join_append_data s).2.
Proof.
  cbn [join_append_data]. destruct (join_append_data s) as [q out].
  unfold special. destruct (Ascii.eqb c quotechar) eqn:Hq.
  - by rewrite orb_true_r.
  - by destruct (_ || _ || _).
Qed.

Lemma join_append_data_plain s :
  (join_append_data s).1 = false ->
  Forall (fun c => special c = false) s /\ (join_append_data s).2 = s.
Proof.
  induction s as [|c s IH]; [done|].
  cbn [join_append_data]. destruct (join_append_data s) as [q out].
  destruct (special c) eqn:Hs; [done|]. simpl. intros ->.
  destruct (IH eq_refl) as [Hall Hout]. simpl in Hout. subst out.
  split; [by constructor|done].
Qed.

Lemma quoted_body s : forall fld flds b rest,
  run (mkReader IN_QUOTED_FIELD fld flds)
      (tk b ((join_append_data s).2 ++ quotechar :: rest)) =
  run (mkReader QUOTE_IN_QUOTED_FIELD (fld ++ s) flds) (tk true rest).
Proof.
  destruct chars_distinct as (? & ? & ? & ? & ? & ? & ? & ? & ? & ? & ? & ?).
  induction s as [|c s IH]; intros fld flds b rest.
  - cbn [join_append_data snd app]. rewrite tk_plain by done.
    csv_step. by rewrite app_nil_r.
  - rewrite join_append_data_cons. destruct (Ascii.eqb c quotechar) eqn:Hq.
    + apply Ascii.eqb_eq in Hq as ->. rewrite <- !app_comm_cons.
      rewrite tk_plain by done. rewrite tk_plain by done.
      csv_step. rewrite IH. by rewrite <- app_assoc.
    + rewrite <- app_comm_cons.
      destruct (quoted_char c fld flds b
                  ((join_append_data s).2 ++ quotechar :: rest) Hq) as [b' ->].
      rewrite IH. by rewrite <- app_assoc.
Qed.

Lemma plain_body s : forall fld flds b c0 rest,
  Forall (fun c => special c = false) s ->
  run (mkReader IN_FIELD fld flds) (tk b (s ++ c0 :: rest)) =
  run (mkReader IN_FIELD (fld ++ s) flds) (tk true (c0 :: rest)).
Proof.
  induction s as [|c s IH]; intros fld flds b c0 rest Hall.
  - by rewrite app_nil_r.
  - inversion Hall as [|? ? Hc Hs]; subst.
    destruct (special_false _ Hc) as (Hd & Hq & HCR & HLF).
    rewrite <- app_comm_cons, tk_plain by done. csv_step.
    rewrite IH by done. by rewrite <- app_assoc.
Qed.

(** A field followed by the delimiter. *)
Lemma field_then_delimiter s st flds b rest :
  field_start st ->
  run (mkReader st [] flds) (tk b (field_text s ++ delimiter :: rest)) =
  run (mkReader START_FIELD [] (flds ++ [s])) (tk true rest).
Proof.
  destruct chars_distinct as (? & ? & ? & ? & ? & ? & ? & ? & ? & ? & ? & ?).
  intros Hst. unfold field_text.
  destruct (join_append_data s) as [q out] eqn:Hj. destruct q.
  - rewrite <- app_comm_cons, <- app_assoc. cbn [app].
    rewrite tk_plain by done.
    replace out with (join_append_data s).2 by (by rewrite Hj).
    destruct Hst as [-> | ->]; csv_step; rewrite quoted_body;
      rewrite tk_plain by done; by csv_step.
  - destruct (join_append_data_plain s) as [Hall Hout]; [by rewrite Hj|].
    rewrite Hj in Hout. simpl in Hout. subst out.
    destruct s as [|c s].
    + cbn [app]. rewrite tk_plain by done.
      destruct Hst as [-> | ->]; by csv_step.
    + inversion Hall as [|? ? Hc Hs]; subst.
      destruct (special_false _ Hc) as (Hd & Hq & HCR & HLF).
      rewrite <- app_comm_cons, tk_plain by done.
      destruct Hst as [-> | ->]; csv_step; rewrite plain_body by done;
        rewrite tk_plain by done; by csv_step.
Qed.

(** A field followed by the line terminator: the record is complete. *)
Lemma field_then_crlf s st flds b rest :
  st = START_FIELD \/ (st = START_RECORD /\ field_text s <> []) ->
  run (mkReader st [] flds) (tk b (field_text s ++ CR :: LF :: rest)) =
  match run parse_reset (tk false rest) with
  | Some rows => Some ((flds ++ [s]) :: rows)
  | None => None
  end.
Proof.
  destruct chars_distinct as (? & ? & ? & ? & ? & ? & ? & ? & ? & ? & ? & ?).
  intros Hst. unfold field_text in *.
  destruct (join_append_data s) as [q out] eqn:Hj. destruct q.
  - rewrite <- app_comm_cons, <- app_assoc. cbn [app].
    rewrite tk_plain by done.
    replace out with (join_append_data s).2 by (by rewrite Hj).
    destruct Hst as [-> | [-> _]]; csv_step; rewrite quoted_body;
      rewrite tk_crlf; by csv_step.
  - destruct (join_append_data_plain s) as [Hall Hout]; [by rewrite Hj|].
    rewrite Hj in Hout. simpl in Hout. subst out.
    destruct s as [|c s].
    + cbn [app]. rewrite tk_crlf.
      destruct Hst as [-> | [_ ?]]; [|done]. by csv_step.
    + inversion Hall as [|? ? Hc Hs]; subst.
      destruct (special_false _ Hc) as (Hd & Hq & HCR & HLF).
      rewrite <- app_comm_cons, tk_plain by done.
      destruct Hst as [-> | [-> _]]; csv_step; rewrite plain_body by done;
        rewrite tk_crlf; by csv_step.
Qed.

(** *** A record, and the file *)

Lemma join_append_first f : join_append 0 f = field_text f.
Proof. unfold join_append, field_text. by destruct (join_append_data f). Qed.

Lemma join_append_next n f : join_append (S n) f = delimiter :: field_text f.
Proof. unfold join_append, field_text. by destruct (join_append_data f). Qed.

Lemma join_fields_next fs : forall n, join_fields (S n) fs = join_fields 1 fs.
Proof.
  induction fs as [|g gs IH]; intros n; [done|].
  cbn [join_fields]. by rewrite !join_append_next, (IH (S n)), (IH 1).
Qed.

Lemma field_text_nil f : field_text f = [] -> f = [].
Proof.
  unfold field_text. destruct (join_append_data f) as [q out] eqn:Hj.
  destruct q; [done|]. intros ->.
  destruct (join_append_data_plain f) as [_ Hout]; [by rewrite Hj|].
  by rewrite Hj in Hout.
Qed.

Lemma row_tail fs : forall f st flds b rest,
  st = START_FIELD \/ (st = START_RECORD /\ (field_text f <> [] \/ fs <> [])) ->
  run (mkReader st [] flds)
      (tk b (field_text f ++ join_fields 1 fs ++ CR :: LF :: rest)) =
  match run parse_reset (tk false rest) with
  | Some rows => Some ((flds ++ f :: fs) :: rows)
  | None => None
  end.
Proof.
  induction fs as [|g gs IH]; intros f st flds b rest Hst.
  - cbn [join_fields app]. apply field_then_crlf.
    destruct Hst as [?|[? [?|?]]]; auto.
  - cbn [join_fields]. rewrite join_append_next, join_fields_next.
    rewrite <- !app_comm_cons, <- app_assoc.
    rewrite field_then_delimiter by (destruct Hst as [?|[? _]]; [by left|by right]).
    rewrite IH by (by left). by rewrite <- app_assoc.
Qed.

(** What [writerow] writes is read back as the row. *)
Lemma writerow_read row b rest :
  run parse_reset (tk b (writerow row ++ rest)) =
  match run parse_reset (tk false rest) with
  | Some rows => Some (row :: rows)
  | None => None
  end.
Proof.
  destruct chars_distinct as (? & ? & ? & ? & ? & ? & ? & ? & ? & ? & ? & ?).
  unfold writerow, lineterminator, parse_reset.
  destruct row as [|f fs].
  - cbn [join_fields app]. rewrite tk_crlf. by csv_step.
  - cbn [join_fields]. rewrite join_append_first.
    destruct (field_text f ++ join_fields 1 fs) as [|c rec] eqn:Hrec.
    + apply app_eq_nil in Hrec as [Hf Hfs].
      apply field_text_nil in Hf as ->.
      destruct fs as [|g gs];
        [|cbn [join_fields] in Hfs; by rewrite join_append_next in Hfs].
      cbn [app]. rewrite tk_plain by done. rewrite tk_plain by done.
      rewrite tk_crlf. by csv_step.
    + rewrite <- Hrec, <- !app_assoc. cbn [app].
      rewrite (row_tail fs f START_RECORD [] b rest); [done|].
      right. split; [done|].
      destruct (field_text f); [|by left]. right. intros ->. done.
Qed.

Lemma file_read rows :
  run parse_reset (tk false (concat (writerow <$> rows))) = Some rows.
Proof.
  induction rows as [|row rows IH]; [done|].
  rewrite fmap_cons. cbn [concat]. by rewrite writerow_read, IH.
Qed.

(** *** Dicts *)

Lemma dict_to_list_asdict item : _dict_to_list (asdict item) = item_row item.
Proof.
  unfold _dict_to_list, asdict, fieldnames, item_row. cbn [fmap list_fmap].
  rewrite lookup_insert_eq.
  rewrite lookup_insert_ne, lookup_insert_eq by done.
  rewrite lookup_insert_ne, lookup_insert_ne, lookup_insert_eq by done.
  done.
Qed.

Lemma header_row :
  _dict_to_list (list_to_map (zip fieldnames fieldnames)) =
  list_ascii_of_string <$> fieldnames.
Proof. by vm_compute. Qed.

Lemma export_rows data :
  export_to_csv data =
  concat (writerow <$> ((list_ascii_of_string <$> fieldnames) :: (item_row <$> data))).
Proof.
  unfold export_to_csv, writeheader. rewrite header_row, fmap_cons.
  cbn [concat]. f_equal. f_equal.
  induction data as [|item data IH]; [done|].
  rewrite !fmap_cons, dict_to_list_asdict. by f_equal.
Qed.

Lemma tuple_of_row item :
  tuple_of (dict_of fieldnames (List.map string_of_list_ascii (item_row item)))
  = Some (item_tuple item).
Proof.
  unfold item_row. cbn [List.map].
  unfold fieldnames, dict_of, tuple_of, item_tuple. cbn [zip zip_with foldl fst snd].
  rewrite !string_of_list_ascii_of_string.
  rewrite lookup_insert_ne, lookup_insert_ne, lookup_insert_eq by done.
  rewrite lookup_insert_ne, lookup_insert_eq by done.
  by rewrite lookup_insert_eq.
Qed.

(** C7. Exporting a list of items to csv and parsing the file back gives
    the (title, description, url) tuples of the list, in order; hence the
    same set of tuples. *)
Theorem csv_round_trip (data : list ScrapedItem) :
  parse_csv (export_to_csv data) = Some (item_tuple <$> data) /\
  forall t, (exists parsed, parse_csv (export_to_csv data) = Some parsed /\ t ∈ parsed)
            <-> t ∈ item_tuple <$> data.
Proof.
  assert (Hparse : parse_csv (export_to_csv data) = Some (item_tuple <$> data)).
  { unfold parse_csv. rewrite reader_file, export_rows, file_read.
    cbn [List.map DictReader].
    induction data as [|item data IH]; [done|].
    rewrite fmap_cons. cbn [List.map List.filter].
    unfold item_row at 1. cbn [List.map]. fold (item_row item).
    rewrite fmap_cons. cbn [mapM].
    change (List.map string_of_list_ascii (list_ascii_of_string <$> fieldnames))
      with fieldnames in *.
    rewrite tuple_of_row. cbn [mbind option_bind].
    rewrite IH. done. }
  split; [exact Hparse|]. intros t. rewrite Hparse. split.
  - by intros (parsed & [= <-] & Hin).
  - intros Hin. eauto.
Qed.

End CsvFacts.

(** ** The synchronous fetcher *)
Section FetchPageFacts.
Variable E : Env.
Variable self : WebScraper.

Local Abbreviation allowed u := (Robots.can_fetch (robot_parser self) "*" u).

Lemma raise_for_status_spec status :
  raise_for_status status = true <-> (400 <= status < 600)%Z.
Proof. unfold raise_for_status. lia. Qed.

(** X1. [fetch_page] returns a body exactly when the url is permitted and
    the server answers with a status outside 400..599, and then it is the
    body of that answer. It sends one request when the url is permitted
    and none otherwise; every [None] comes with exactly one log record, a
    success logs nothing, and the database is not touched. *)
Theorem fetch_page_outcomes (u : string) (w : World) :
  (forall body,
      (fetch_page E self u w).1 = Some body <->
      allowed u = true /\
      exists status, net E u = HttpResponse status body /\
                     ~ (400 <= status < 600)%Z) /\
  requests (fetch_page E self u w).2
    = (if allowed u then requests w ++ [u] else requests w) /\
  ((fetch_page E self u w).1 = None ->
   exists r, log (fetch_page E self u w).2 = log w ++ [r]) /\
  ((fetch_page E self u w).1 <> None ->
   log (fetch_page E self u w).2 = log w) /\
  database (fetch_page E self u w).2 = database w.
Proof.
  unfold fetch_page. destruct (allowed u) eqn:Hal; simpl.
  - destruct (net E u) as [status body0|msg] eqn:Hnet.
    + destruct (raise_for_status status) eqn:Hst; simpl.
      * apply raise_for_status_spec in Hst.
        split; [|split; [done|split; [eauto|split; [done|done]]]].
        intros body. split; [done|].
        intros (_ & st & [= <- <-] & Hno). done.
      * assert (Hno : ~ (400 <= status < 600)%Z).
        { intros H. apply raise_for_status_spec in H. congruence. }
        split; [|split; [done|split; [done|split; [done|done]]]].
        intros body. split.
        -- intros [= <-]. eauto.
        -- by intros (_ & st & [= <- <-] & _).
    + split; [|split; [done|split; [eauto|split; [done|done]]]].
      intros body. split; [done|]. by intros (_ & st & ? & _).
  - split; [|split; [done|split; [eauto|split; [done|done]]]].
    intros body. split; [done|]. by intros [? _].
Qed.

End FetchPageFacts.

(** ** What the fetch phase sends and logs *)
Section TraceFacts.
Variable E : Env.
Variable self : WebScraper.
Variable urls : list string.
Variable w0 : World.

Local Abbreviation allowed u := (Robots.can_fetch (robot_parser self) "*" u).

Lemma lookup_after_insert (ts : list Task) i t' j t :
  i < length ts ->
  <[i := t']> ts !! j = Some t <-> (j = i /\ t = t') \/ (j <> i /\ ts !! j = Some t).
Proof.
  intros Hi. rewrite list_lookup_insert_Some. split.
  - intros [(-> & -> & _)|[? ?]]; [by left|by right].
  - intros [[-> ->]|[? ?]]; [by left|right; by split].
Qed.

Lemma requests_inv_init :
  requests_inv self urls w0 (mkLoop (replicate (length urls) Pending) w0) [].
Proof.
  split; simpl.
  - by rewrite app_nil_r.
  - constructor.
  - intros v. split; [by intros ?%not_elem_of_nil|].
    intros (i & t & _ & Ht & Hb & _).
    apply lookup_replicate in Ht as [-> _]. done.
Qed.

Lemma requests_inv_step ev l l' rq :
  NoDup urls ->
  loop_inv E self urls w0 l ->
  requests_inv self urls w0 l rq ->
  exec_event E self urls ev l = Some l' ->
  exists rq', requests_inv self urls w0 l' rq'.
Proof.
  intros Hnd Hinv [Heq Hrq Hmem] Hstep.
  destruct ev as [i|i]; simpl in Hstep;
    destruct (tasks l !! i) as [[| |r0]|] eqn:Hti; try done;
    destruct (urls !! i) as [u|] eqn:Hui; try done;
    pose proof (lookup_lt_Some _ _ _ Hti) as Hlt.
  - unfold async_fetch_page_begin in Hstep.
    destruct (allowed u) eqn:Hal; simpl in Hstep; injection Hstep as <-.
    + exists (rq ++ [u]). split; simpl.
      * by rewrite Heq, app_assoc.
      * apply NoDup_app. split; [done|]. split; [|apply NoDup_singleton].
        intros v Hv ->%list_elem_of_singleton.
        apply Hmem in Hv as (j & t & Hj & Ht & Hb & _).
        assert (j = i) as -> by exact (NoDup_lookup _ _ _ _ Hnd Hj Hui).
        rewrite Hti in Ht. by injection Ht as <-.
      * intros v. rewrite elem_of_app, list_elem_of_singleton, Hmem. split.
        -- intros [(j & t & Hj & Ht & Hb & Hv)| ->].
           ++ exists j, t. split; [done|]. split; [|done].
              apply lookup_after_insert; [done|]. right. split; [|done].
              intros ->. rewrite Hti in Ht. by injection Ht as <-.
           ++ exists i, InFlight. split; [done|]. split; [|done].
              apply lookup_after_insert; [done|]. by left.
        -- intros (j & t & Hj & Ht & Hb & Hv).
           apply lookup_after_insert in Ht as [[-> ->]|[Hne Ht]]; [|by eauto 8|done].
           right. congruence.
    + exists rq. split; simpl; [done|done|].
      intros v. rewrite Hmem. split.
      * intros (j & t & Hj & Ht & Hb & Hv). exists j, t.
        split; [done|]. split; [|done].
        apply lookup_after_insert; [done|]. right. split; [|done].
        intros ->. rewrite Hti in Ht. by injection Ht as <-.
      * intros (j & t & Hj & Ht & Hb & Hv).
        apply lookup_after_insert in Ht as [[-> ->]|[Hne Ht]]; [|by eauto 8|done].
        congruence.
  - destruct (async_fetch_page_resume u (net E u) (world l)) as [r w'] eqn:Hres.
    injection Hstep as <-.
    assert (Hw : requests w' = requests (world l)).
    { unfold async_fetch_page_resume in Hres.
      by destruct (net E u); injection Hres as _ <-. }
    exists rq. split; simpl; [congruence|done|].
    intros v. rewrite Hmem. split.
    + intros (j & t & Hj & Ht & Hb & Hv).
      destruct (decide (j = i)) as [->|Hne].
      * exists i, (Done r). split; [done|]. split; [|done].
        apply lookup_after_insert; [done|]. by left.
      * exists j, t. split; [done|]. split; [|done].
        apply lookup_after_insert; [done|]. by right.
    + intros (j & t & Hj & Ht & Hb & Hv).
      apply lookup_after_insert in Ht as [[-> ->]|[Hne Ht]]; [|by eauto 8|done].
      exists i, InFlight. by rewrite Hv.
Qed.

Lemma requests_inv_schedule sched : forall l l' rq,
  NoDup urls ->
  loop_inv E self urls w0 l ->
  requests_inv self urls w0 l rq ->
  exec_schedule E self urls sched l = Some l' ->
  exists rq', requests_inv self urls w0 l' rq'.
Proof.
  induction sched as [|ev sched IH]; simpl; intros l l' rq Hnd Hinv Hrq Hrun.
  - injection Hrun as <-. eauto.
  - destruct (exec_event E self urls ev l) as [l1|] eqn:Hev; [|done].
    destruct (requests_inv_step _ _ _ _ Hnd Hinv Hrq Hev) as [rq1 Hrq1].
    eapply IH; [done| |exact Hrq1|exact Hrun].
    by eapply loop_inv_step.
Qed.

Lemma concat_insert_nil {A} (L : list (list A)) i x :
  L !! i = Some [] -> concat (<[i := x]> L) ≡ₚ concat L ++ x.
Proof.
  revert i. induction L as [|l0 L IH]; intros i Hi; [done|].
  destruct i as [|i]; simpl in *.
  - injection Hi as ->. simpl. apply Permutation_app_comm.
  - rewrite (IH _ Hi). by rewrite app_assoc.
Qed.

Lemma emitted_pending (us : list string) n :
  concat (zip_with (emitted E self) us (replicate n Pending)) = [].
Proof.
  revert n. induction us as [|u us IH]; intros [|n]; simpl; done.
Qed.

Lemma emitted_insert ts i u t t' :
  urls !! i = Some u -> ts !! i = Some t -> is_done t = false ->
  concat (zip_with (emitted E self) urls (<[i := t']> ts))
  ≡ₚ concat (zip_with (emitted E self) urls ts) ++ emitted E self u t'.
Proof.
  intros Hu Ht Hd.
  rewrite <- (list_insert_id urls i u Hu) at 1.
  rewrite <- insert_zip_with. apply concat_insert_nil.
  rewrite lookup_zip_with, Hu, Ht. simpl. unfold emitted. by rewrite Hd.
Qed.

Lemma emitted_done (us : list string) ts pages :
  results ts = Some pages -> length ts = length us ->
  zip_with (emitted E self) us ts = records_of E self <$> us.
Proof.
  revert us pages. induction ts as [|t ts IH]; intros [|u us] pages Hres Hlen;
    try done.
  simpl in Hres. destruct t as [| |r]; try done.
  destruct (results ts) as [rs|] eqn:Hrs; [|done].
  simpl in Hlen. rewrite fmap_cons. cbn [zip_with]. f_equal.
  eapply (IH us); [done|lia].
Qed.

Lemma log_inv_init :
  log_inv E self urls w0 (mkLoop (replicate (length urls) Pending) w0) [].
Proof.
  split; simpl.
  - by rewrite app_nil_r.
  - by rewrite emitted_pending.
Qed.

Lemma log_inv_step ev l l' lg :
  loop_inv E self urls w0 l ->
  log_inv E self urls w0 l lg ->
  exec_event E self urls ev l = Some l' ->
  exists lg', log_inv E self urls w0 l' lg'.
Proof.
  intros Hinv [Heq Hperm] Hstep.
  destruct ev as [i|i]; simpl in Hstep;
    destruct (tasks l !! i) as [[| |r0]|] eqn:Hti; try done;
    destruct (urls !! i) as [u|] eqn:Hui; try done.
  - unfold async_fetch_page_begin in Hstep.
    destruct (allowed u) eqn:Hal; simpl in Hstep; injection Hstep as <-.
    + exists lg. split; simpl; [done|].
      rewrite (emitted_insert _ _ _ _ _ Hui Hti eq_refl).
      unfold emitted at 2. simpl. by rewrite app_nil_r.
    + exists (lg ++ [LogWarning (denied_msg u)]). split; simpl.
      * by rewrite Heq, app_assoc.
      * rewrite (emitted_insert _ _ _ _ _ Hui Hti eq_refl).
        unfold emitted at 2, records_of. simpl. rewrite Hal. by rewrite Hperm.
  - destruct (inv_tasks _ _ _ _ _ Hinv _ _ Hti) as (u' & Hu' & Hal).
    rewrite Hui in Hu'. injection Hu' as <-.
    unfold async_fetch_page_resume in Hstep.
    destruct (net E u) as [status body|msg] eqn:Hnet; injection Hstep as <-.
    + exists lg. split; simpl; [done|].
      rewrite (emitted_insert _ _ _ _ _ Hui Hti eq_refl).
      unfold emitted at 2, records_of. simpl. rewrite Hal, Hnet. by rewrite app_nil_r.
    + exists (lg ++ [LogError (error_msg u msg)]). split; simpl.
      * by rewrite Heq, app_assoc.
      * rewrite (emitted_insert _ _ _ _ _ Hui Hti eq_refl).
        unfold emitted at 2, records_of. simpl. rewrite Hal, Hnet. by rewrite Hperm.
Qed.

Lemma log_inv_schedule sched : forall l l' lg,
  loop_inv E self urls w0 l ->
  log_inv E self urls w0 l lg ->
  exec_schedule E self urls sched l = Some l' ->
  exists lg', log_inv E self urls w0 l' lg'.
Proof.
  induction sched as [|ev sched IH]; simpl; intros l l' lg Hinv Hlg Hrun.
  - injection Hrun as <-. eauto.
  - destruct (exec_event E self urls ev l) as [l1|] eqn:Hev; [|done].
    destruct (log_inv_step _ _ _ _ Hinv Hlg Hev) as [lg1 Hlg1].
    eapply IH; [|exact Hlg1|exact Hrun].
    by eapply loop_inv_step.
Qed.

Lemma results_all_done ts pages :
  results ts = Some pages -> forall i t, ts !! i = Some t -> is_done t = true.
Proof.
  revert pages. induction ts as [|t0 ts IH]; intros pages Hres i t Hi; [done|].
  simpl in Hres. destruct t0 as [| |r0]; try done.
  destruct (results ts) as [rs|] eqn:Hrs; [|done].
  destruct i as [|i]; simpl in Hi; [by injection Hi as <-|]. by eapply IH.
Qed.

(** With pairwise distinct urls, [gather] sends exactly one request for
    each permitted url. *)
Lemma gather_requests sched pages w' :
  NoDup urls ->
  gather E self urls sched w0 = Some (pages, w') ->
  exists rq, requests w' = requests w0 ++ rq /\
             rq ≡ₚ filter (fun u => allowed u = true) urls.
Proof.
  intros Hnd. unfold gather.
  destruct (exec_schedule E self urls sched _) as [l|] eqn:Hrun; [|done].
  destruct (results (tasks l)) as [ps|] eqn:Hres; [|done].
  intros [= <- <-].
  pose proof (loop_inv_schedule _ _ _ _ _ _ _ (loop_inv_init E self urls w0) Hrun) as Hinv.
  destruct (requests_inv_schedule _ _ _ _ Hnd (loop_inv_init E self urls w0)
              requests_inv_init Hrun) as [rq [Heq Hrq Hmem]].
  exists rq. split; [done|].
  apply NoDup_Permutation; [done|by apply NoDup_filter|].
  intros v. rewrite Hmem, list_elem_of_filter. split.
  - intros (i & t & Hi & _ & _ & Hv). split; [done|].
    by eapply list_elem_of_lookup_2.
  - intros [Hv Hin]. apply list_elem_of_lookup in Hin as [i Hi].
    destruct (lookup_lt_is_Some_2 (tasks l) i) as [t Ht].
    { rewrite (inv_length _ _ _ _ _ Hinv). by eapply lookup_lt_Some. }
    exists i, t. split; [done|]. split; [done|]. split; [|done].
    pose proof (results_all_done _ _ Hres _ _ Ht). by destruct t.
Qed.

(** [gather] logs the records of each url once, in the order in which
    the tasks happen to log them. *)
Lemma gather_log sched pages w' :
  gather E self urls sched w0 = Some (pages, w') ->
  exists lg, log w' = log w0 ++ lg /\
             lg ≡ₚ concat (records_of E self <$> urls).
Proof.
  unfold gather.
  destruct (exec_schedule E self urls sched _) as [l|] eqn:Hrun; [|done].
  destruct (results (tasks l)) as [ps|] eqn:Hres; [|done].
  intros [= <- <-].
  pose proof (loop_inv_schedule _ _ _ _ _ _ _ (loop_inv_init E self urls w0) Hrun) as Hinv.
  destruct (log_inv_schedule _ _ _ _ (loop_inv_init E self urls w0)
              log_inv_init Hrun) as [lg [Heq Hperm]].
  exists lg. split; [done|].
  rewrite Hperm. erewrite emitted_done; [done|exact Hres|].
  exact (inv_length _ _ _ _ _ Hinv).
Qed.

End TraceFacts.

(** ** What [async_scrape] returns and stores *)
Section ResultFacts.
Variable E : Env.
Variable self : WebScraper.

Local Abbreviation allowed u := (Robots.can_fetch (robot_parser self) "*" u).

Lemma page_result_Some u body :
  page_result E self u = Some body <->
  allowed u = true /\ exists status, net E u = HttpResponse status body.
Proof.
  unfold page_result, async_fetch_page, async_fetch_page_begin.
  destruct (allowed u); simpl; [|by split; [|intros [? _]]].
  destruct (net E u) as [status b|msg]; simpl; split.
  - intros [= <-]. eauto.
  - by intros (_ & st & [= _ <-]).
  - done.
  - by intros (_ & st & ?).
Qed.

Lemma scraped_spec u :
  scraped E self u = true <->
  allowed u = true /\
  exists status body, net E u = HttpResponse status body /\ body <> EmptyString.
Proof.
  unfold scraped. destruct (page_result E self u) as [body|] eqn:Hp.
  - apply page_result_Some in Hp as (Hal & st & Hnet). split.
    + intros Ht. split; [done|]. exists st, body. split; [done|].
      by destruct body.
    + intros (_ & st' & body' & Hnet' & Hne).
      rewrite Hnet in Hnet'. injection Hnet' as _ <-. by destruct body.
  - split; [done|]. intros (Hal & st & body & Hnet & _).
    assert (page_result E self u = Some body) by (apply page_result_Some; eauto).
    congruence.
Qed.

Lemma filter_zip_fmap {A B} (f : A -> B) (p : B -> bool) (l : list A) :
  fst <$> List.filter (fun z : A * B => p z.2) (zip l (f <$> l)) =
  List.filter (fun a => p (f a)) l.
Proof.
  induction l as [|a l IH]; [done|].
  rewrite fmap_cons. cbn [zip zip_with List.filter snd].
  destruct (p (f a)); [rewrite fmap_cons; cbn [fst]|]; by rewrite IH.
Qed.

(** Each returned item was extracted from the page of its url. *)
Lemma process_pages_items zipped : forall all w r w',
  process_pages E zipped all w = (inr r, w') ->
  exists items,
    r = all ++ items /\
    forall item, item ∈ items ->
      exists body, (url item, Some body) ∈ zipped /\ truthy (Some body) = true /\
                   Soup.extract_data (parse_page E body) (url item) = inr item.
Proof.
  induction zipped as [|[u html] rest IH]; intros all w r w' Hp.
  - injection Hp as <- <-. exists []. rewrite app_nil_r. split; [done|].
    by intros item ?%not_elem_of_nil.
  - destruct (truthy html) eqn:Ht.
    + destruct html as [body|]; [|done].
      rewrite process_pages_keep in Hp by done.
      destruct (Soup.extract_data (parse_page E body) u) as [e|item] eqn:Hx;
        [done|].
      destruct (IH _ _ _ _ Hp) as (items & -> & Hitems).
      exists (item :: items). rewrite <- app_assoc. split; [done|].
      intros it [->|Hin]%elem_of_cons.
      * exists body. rewrite (extract_data_url _ _ _ Hx).
        split; [left|]. by split.
      * destruct (Hitems _ Hin) as (b & Hb & Hrest). exists b.
        split; [by right|done].
    + rewrite process_pages_skip in Hp by done.
      destruct (IH _ _ _ _ Hp) as (items & -> & Hitems).
      exists items. split; [done|].
      intros it Hin. destruct (Hitems _ Hin) as (b & Hb & Hrest). exists b.
      split; [by right|done].
Qed.

(** The items returned do not depend on the world the loop runs in. *)
Lemma process_pages_result zipped : forall all w1 w2,
  (process_pages E zipped all w1).1 = (process_pages E zipped all w2).1.
Proof.
  induction zipped as [|[u html] rest IH]; intros all w1 w2; [done|].
  destruct (truthy html) eqn:Ht.
  - destruct html as [body|]; [|done].
    rewrite !process_pages_keep by done.
    destruct (Soup.extract_data (parse_page E body) u) as [e|item]; [done|].
    apply IH.
  - rewrite !process_pages_skip by done. apply IH.
Qed.

(** *** Saving a list of items with distinct urls *)

Lemma select_save_all_other u items : forall tb,
  u ∉ url <$> items ->
  Store.select_by_url u (save_all tb items) = Store.select_by_url u tb.
Proof.
  induction items as [|it items IH]; intros tb Hu; [done|].
  rewrite fmap_cons in Hu. apply not_elem_of_cons in Hu as [Hne Hu].
  cbn [save_all foldl]. fold (save_all (Store._save_to_database it tb) items).
  rewrite IH by done. by apply select_other_insert.
Qed.

Lemma select_save_all_in item items : forall tb,
  NoDup (url <$> items) -> item ∈ items ->
  Store.select_by_url (url item) (save_all tb items)
  = [(title item, description item)].
Proof.
  induction items as [|it items IH]; intros tb Hnd Hin;
    [by apply not_elem_of_nil in Hin|].
  rewrite fmap_cons in Hnd. apply NoDup_cons in Hnd as [Hfresh Hnd].
  cbn [save_all foldl]. fold (save_all (Store._save_to_database it tb) items).
  apply elem_of_cons in Hin as [->|Hin].
  - rewrite select_save_all_other by done. apply select_after_insert.
  - by apply IH.
Qed.

Lemma save_all_unique_urls items tb :
  Store.unique_urls tb -> Store.unique_urls (save_all tb items).
Proof. apply save_all_unique. Qed.

(** *** The run *)

Lemma async_scrape_items sched max_pages w items w' :
  async_scrape E self sched max_pages w = Some (inr items, w') ->
  url <$> items
    = List.filter (scraped E self) (page_urls (base_url self) max_pages) /\
  database w' = save_all (database w) items /\
  forall item, item ∈ items ->
    exists body, page_result E self (url item) = Some body /\
                 Soup.extract_data (parse_page E body) (url item) = inr item.
Proof.
  unfold async_scrape.
  set (urls := page_urls (base_url self) max_pages).
  destruct (gather E self urls sched w) as [[pages w1]|] eqn:Hg; [|done].
  intros [= Hp].
  pose proof (gather_pages _ _ _ _ _ _ _ Hg) as ->.
  destruct (gather_world _ _ _ _ _ _ _ Hg) as (Hdb & _).
  destruct (process_pages_returns _ _ _ _ _ _ Hp) as (its & Hits & Hurls & Hsave & _).
  simpl in Hits. subst its.
  split; [|split].
  - rewrite Hurls. apply (filter_zip_fmap (page_result E self) truthy).
  - by rewrite Hsave, Hdb.
  - destruct (process_pages_items _ _ _ _ _ Hp) as (its & Hits & Hbody).
    simpl in Hits. subst its.
    intros item Hin. destruct (Hbody _ Hin) as (body & Hz & _ & Hx).
    exists body. split; [|done].
    apply list_elem_of_lookup in Hz as [i Hi].
    apply lookup_zip_with_Some in Hi as (v & h & [= <- <-] & Hv & Hh).
    by rewrite list_lookup_fmap, Hv in Hh; injection Hh as <-.
Qed.

Lemma NoDup_scraped_urls max_pages :
  NoDup (List.filter (scraped E self) (page_urls (base_url self) max_pages)).
Proof.
  apply NoDup_ListNoDup, List.NoDup_filter, NoDup_ListNoDup, NoDup_page_urls.
Qed.

(** X3. In every interleaving [async_scrape] calls [session.get] exactly
    once for each permitted page url and never for any other url: the
    calls added to the trace are a permutation of the permitted page
    urls. main.py has no retry of its own; what the client library does
    within one call (redirects, re-sending on a broken connection) is
    below this trace. *)
Theorem one_get_per_permitted_url
        (sched : list Event) (max_pages : Z) (w : World)
        (res : Exn + list ScrapedItem) (w' : World) :
  async_scrape E self sched max_pages w = Some (res, w') ->
  exists rq,
    requests w' = requests w ++ rq /\
    rq ≡ₚ filter (fun u => allowed u = true) (page_urls (base_url self) max_pages).
Proof.
  unfold async_scrape.
  set (urls := page_urls (base_url self) max_pages).
  destruct (gather E self urls sched w) as [[pages w1]|] eqn:Hg; [|done].
  intros [= Hp].
  destruct (gather_requests _ _ _ _ _ _ _ (NoDup_page_urls _ _) Hg) as (rq & Heq & Hperm).
  destruct (process_pages_effects _ _ _ _ _ _ Hp) as [Hrq _].
  exists rq. by rewrite Hrq.
Qed.

(** X4. In every interleaving the records [async_scrape] adds to the log
    are, up to their order, the records of the page urls taken one by
    one, each as often as it occurs there: one warning for each denied
    page url, one error for each permitted page url whose request fails,
    and nothing for a page that is answered, whatever its status or
    body. *)
Theorem log_records_of_run
        (sched : list Event) (max_pages : Z) (w : World)
        (res : Exn + list ScrapedItem) (w' : World) :
  async_scrape E self sched max_pages w = Some (res, w') ->
  exists lg,
    log w' = log w ++ lg /\
    lg ≡ₚ concat (records_of E self <$> page_urls (base_url self) max_pages).
Proof.
  unfold async_scrape.
  set (urls := page_urls (base_url self) max_pages).
  destruct (gather E self urls sched w) as [[pages w1]|] eqn:Hg; [|done].
  intros [= Hp].
  destruct (gather_log _ _ _ _ _ _ _ Hg) as (lg & Heq & Hperm).
  destruct (process_pages_effects _ _ _ _ _ _ Hp) as [_ Hlog].
  exists lg. by rewrite Hlog.
Qed.

(** X5. When [async_scrape] returns a list, its items are, in page order,
    those of the page urls that are permitted and answered with a
    non-empty body (any status): one item per such url, each extracted
    from the body of its own url; so the urls of the items are pairwise
    distinct and there are at most [max_pages] items. *)
Theorem returned_items_follow_pages
        (sched : list Event) (max_pages : Z) (w : World)
        (items : list ScrapedItem) (w' : World) :
  async_scrape E self sched max_pages w = Some (inr items, w') ->
  url <$> items
    = List.filter (scraped E self) (page_urls (base_url self) max_pages) /\
  (forall item, item ∈ items ->
     allowed (url item) = true /\
     exists status body,
       net E (url item) = HttpResponse status body /\ body <> EmptyString /\
       Soup.extract_data (parse_page E body) (url item) = inr item) /\
  NoDup (url <$> items) /\
  (Z.of_nat (length items) <= Z.max 0 max_pages)%Z.
Proof.
  intros Hrun. destruct (async_scrape_items _ _ _ _ _ Hrun) as (Hurls & _ & Hbody).
  split; [done|]. split; [|split].
  - intros item Hin. destruct (Hbody _ Hin) as (body & Hp & Hx).
    assert (Hs : scraped E self (url item) = true).
    { assert (Hm : url item ∈ url <$> items) by (by apply list_elem_of_fmap_2).
      rewrite Hurls in Hm. by apply list_elem_of_In, List.filter_In in Hm as [_ ?]. }
    apply page_result_Some in Hp as (Hal & st & Hnet).
    split; [done|]. exists st, body. split; [done|]. split; [|done].
    apply scraped_spec in Hs as (_ & st' & b' & Hnet' & Hne). congruence.
  - rewrite Hurls. apply NoDup_scraped_urls.
  - rewrite <- (length_fmap url), Hurls.
    pose proof (List.filter_length_le (scraped E self)
                  (page_urls (base_url self) max_pages)) as Hle.
    rewrite length_page_urls in Hle. lia.
Qed.

(** X6. When [async_scrape] returns a list, every returned item can be
    read back from the database under its url with its title and
    description, the rows of every other url are as they were before the
    run, and a table with at most one row per url still has at most one
    row per url. *)
Theorem returned_items_are_stored
        (sched : list Event) (max_pages : Z) (w : World)
        (items : list ScrapedItem) (w' : World) :
  async_scrape E self sched max_pages w = Some (inr items, w') ->
  (forall item, item ∈ items ->
     Store.select_by_url (url item) (database w')
     = [(title item, description item)]) /\
  (forall u, u ∉ url <$> items ->
     Store.select_by_url u (database w') = Store.select_by_url u (database w)) /\
  (Store.unique_urls (database w) -> Store.unique_urls (database w')).
Proof.
  intros Hrun. destruct (async_scrape_items _ _ _ _ _ Hrun) as (Hurls & Hdb & _).
  rewrite Hdb. split; [|split].
  - intros item Hin. apply select_save_all_in; [|done].
    rewrite Hurls. apply NoDup_scraped_urls.
  - intros u Hu. by apply select_save_all_other.
  - apply save_all_unique_urls.
Qed.

(** X7. Scraping again with the same answers changes nothing that can be
    read from the database: a second run started on the database of the
    first returns the same items, and for every url the stored title and
    description are the same after it as before it. *)
Theorem second_run_changes_nothing
        (s1 s2 : list Event) (max_pages : Z) (w : World)
        (items : list ScrapedItem) (w1 : World)
        (res2 : Exn + list ScrapedItem) (w2 : World) :
  async_scrape E self s1 max_pages w = Some (inr items, w1) ->
  async_scrape E self s2 max_pages w1 = Some (res2, w2) ->
  res2 = inr items /\
  forall u, Store.select_by_url u (database w2) = Store.select_by_url u (database w1).
Proof.
  intros H1 H2.
  assert (Hres : res2 = inr items).
  { revert H1 H2. unfold async_scrape.
    set (urls := page_urls (base_url self) max_pages).
    destruct (gather E self urls s1 w) as [[p1 v1]|] eqn:Hg1; [|done].
    destruct (gather E self urls s2 w1) as [[p2 v2]|] eqn:Hg2; [|done].
    rewrite (gather_pages _ _ _ _ _ _ _ Hg1), (gather_pages _ _ _ _ _ _ _ Hg2).
    intros [= Ha] [= Hb].
    pose proof (process_pages_result (zip urls (page_result E self <$> urls)) [] v1 v2) as Heq.
    rewrite Ha, Hb in Heq. done. }
  subst res2. split; [done|].
  destruct (async_scrape_items _ _ _ _ _ H1) as (Hurls & Hdb1 & _).
  destruct (async_scrape_items _ _ _ _ _ H2) as (_ & Hdb2 & _).
  assert (Hnd : NoDup (url <$> items))
    by (rewrite Hurls; apply NoDup_scraped_urls).
  intros u. rewrite Hdb2. destruct (decide (u ∈ url <$> items)) as [Hin|Hout].
  - apply list_elem_of_fmap in Hin as (item & -> & Hin).
    rewrite select_save_all_in by done. rewrite Hdb1.
    by rewrite select_save_all_in.
  - by rewrite select_save_all_other.
Qed.

End ResultFacts.

(** ** These statements at the concrete run *)
Section ResultInstances.

Local Abbreviation page n := ("https://example.com/page/" +:+ n)%string.

Lemma one_get_per_permitted_url_witness :
  exists res w',
    async_scrape example_env example_scraper example_schedule 5 example_world
    = Some (res, w') /\
    requests w' ≡ₚ [page "1"; page "2"; page "4"; page "5"].
Proof.
  destruct (async_scrape example_env example_scraper example_schedule 5
              example_world) as [[res w']|] eqn:Hrun; [|by vm_compute in Hrun].
  exists res, w'. split; [done|].
  destruct (one_get_per_permitted_url example_env example_scraper
              _ _ _ _ _ Hrun) as (rq & -> & Hperm).
  rewrite Hperm. by vm_compute.
Defined.

(** Page 3 is denied and the connection to page 5 fails: one warning and
    one error, and nothing for page 2, which answers 500. *)
Lemma log_records_of_run_witness :
  exists res w',
    async_scrape example_env example_scraper example_schedule 5 example_world
    = Some (res, w') /\
    log w' ≡ₚ [LogWarning (denied_msg (page "3"));
               LogError (error_msg (page "5") "Connection reset")].
Proof.
  destruct (async_scrape example_env example_scraper example_schedule 5
              example_world) as [[res w']|] eqn:Hrun; [|by vm_compute in Hrun].
  exists res, w'. split; [done|].
  destruct (log_records_of_run example_env example_scraper
              _ _ _ _ _ Hrun) as (lg & -> & Hperm).
  rewrite Hperm. by vm_compute.
Defined.

Lemma returned_items_follow_pages_witness :
  exists items w',
    async_scrape example_env example_scraper example_schedule 5 example_world
    = Some (inr items, w') /\
    url <$> items = [page "1"; page "2"].
Proof.
  destruct (async_scrape example_env example_scraper example_schedule 5
              example_world) as [[[e|items] w']|] eqn:Hrun;
    [by vm_compute in Hrun| |by vm_compute in Hrun].
  exists items, w'. split; [done|].
  destruct (returned_items_follow_pages example_env example_scraper
              _ _ _ _ _ Hrun) as (-> & _).
  by vm_compute.
Defined.

Lemma returned_items_are_stored_witness :
  exists items w',
    async_scrape example_env example_scraper example_schedule 5 example_world
    = Some (inr items, w') /\
    Store.select_by_url (page "3") (database w') = [].
Proof.
  destruct (async_scrape example_env example_scraper example_schedule 5
              example_world) as [[[e|items] w']|] eqn:Hrun;
    [by vm_compute in Hrun| |by vm_compute in Hrun].
  exists items, w'. split; [done|].
  destruct (returned_items_are_stored example_env example_scraper
              _ _ _ _ _ Hrun) as (_ & Hother & _).
  rewrite Hother; [done|].
  destruct (async_scrape_items example_env example_scraper
              _ _ _ _ _ Hrun) as (-> & _).
  intros Hin. vm_compute in Hin.
  repeat (apply elem_of_cons in Hin as [Hin|Hin]; [discriminate Hin|]).
  by apply not_elem_of_nil in Hin.
Defined.

Lemma second_run_changes_nothing_witness :
  exists items w1 res2 w2,
    async_scrape example_env example_scraper example_schedule 5 example_world
    = Some (inr items, w1) /\
    async_scrape example_env example_scraper
      (fifo_schedule example_scraper (page_urls main_base_url 5)) 5 w1
    = Some (res2, w2) /\
    res2 = inr items.
Proof.
  destruct (async_scrape example_env example_scraper example_schedule 5
              example_world) as [[[e|items] w1]|] eqn:H1;
    [by vm_compute in H1| |by vm_compute in H1].
  destruct (async_scrape example_env example_scraper
              (fifo_schedule example_scraper (page_urls main_base_url 5)) 5 w1)
    as [[res2 w2]|] eqn:H2.
  - exists items, w1, res2, w2. split; [done|]. split; [done|].
    exact (proj1 (second_run_changes_nothing example_env example_scraper
                    _ _ _ _ _ _ _ _ H1 H2)).
  - exfalso. unfold async_scrape in H2.
    destruct (gather_fifo_returns example_env example_scraper
                (page_urls (base_url example_scraper) 5) w1) as [w3 Hg].
    change (base_url example_scraper) with main_base_url in *.
    by rewrite Hg in H2.
Defined.

End ResultInstances.

(** ** Row ids and row counts *)
Section StoreIdFacts.
Import Store.

Lemma max_rowid_bound l r : r ∈ l -> (row_id r <= max_rowid l)%Z.
Proof.
  induction l as [|r0 l IH]; [by intros ?%not_elem_of_nil|].
  intros [->|Hin]%elem_of_cons; simpl; [lia|].
  specialize (IH Hin). lia.
Qed.

Lemma next_rowid_fresh tb :
  (sequence tb < next_rowid tb)%Z /\
  forall r, r ∈ rows tb -> (row_id r < next_rowid tb)%Z.
Proof.
  unfold next_rowid. split; [lia|].
  intros r Hr. pose proof (max_rowid_bound _ _ Hr). lia.
Qed.

(** X8. While the largest row id ever used is below the largest id sqlite
    has (2^63 - 1), a save gives its row a new id, larger than every id
    in the table and than every id handed out before, and still an id
    sqlite has: the row of a url that is saved again does not keep its
    id, the ids in the table stay pairwise distinct, and the saved row is
    the last row of the table. *)
Theorem save_assigns_fresh_id (item : ScrapedItem) (tb : Table) :
  (Z.max (sequence tb) (max_rowid (rows tb)) < rowid_max)%Z ->
  (sequence tb < sequence (_save_to_database item tb) <= rowid_max)%Z /\
  (forall r, r ∈ rows tb -> (row_id r < sequence (_save_to_database item tb))%Z) /\
  last (rows (_save_to_database item tb))
    = Some (mkRow (sequence (_save_to_database item tb))
                  (title item) (description item) (url item)) /\
  (NoDup (row_id <$> rows tb) ->
   NoDup (row_id <$> rows (_save_to_database item tb))).
Proof.
  intros Hmax.
  destruct (next_rowid_fresh tb) as [Hseq Hrows].
  assert (next_rowid tb <= rowid_max)%Z as Hle by (unfold next_rowid; lia).
  unfold _save_to_database, insert_or_replace. cbn [sequence rows].
  split; [done|]. split; [done|]. split; [by rewrite last_snoc|].
  intros Hnd. rewrite fmap_app. apply NoDup_app. split; [|split].
  - clear -Hnd. induction (rows tb) as [|r l IH]; [constructor|].
    rewrite fmap_cons in Hnd. apply NoDup_cons in Hnd as [Hr Hnd].
    rewrite filter_cons. destruct (decide (row_url r ≠ url item)); [|by apply IH].
    rewrite fmap_cons. apply NoDup_cons. split; [|by apply IH].
    intros Hin. apply Hr. apply list_elem_of_fmap in Hin as (r' & -> & Hr').
    apply list_elem_of_filter in Hr' as [_ Hr']. by apply list_elem_of_fmap_2.
  - intros id Hid Hnew. apply list_elem_of_singleton in Hnew. simpl in Hnew.
    apply list_elem_of_fmap in Hid as (r & -> & Hr).
    apply list_elem_of_filter in Hr as [_ Hr]. specialize (Hrows _ Hr). lia.
  - apply NoDup_singleton.
Qed.

(** A url saved twice: its row has id 2 after the second save. *)
Lemma save_assigns_fresh_id_witness :
  (Z.max (sequence (_save_to_database (mkItem "t1" "d1" "u") empty_table))
         (max_rowid (rows (_save_to_database (mkItem "t1" "d1" "u") empty_table)))
   < rowid_max)%Z /\
  last (rows (_save_to_database (mkItem "t2" "d2" "u")
                (_save_to_database (mkItem "t1" "d1" "u") empty_table)))
  = Some (mkRow 2 "t2" "d2" "u").
Proof.
  assert (Hmax : (Z.max (sequence (_save_to_database (mkItem "t1" "d1" "u") empty_table))
                        (max_rowid (rows (_save_to_database (mkItem "t1" "d1" "u")
                                            empty_table)))
                  < rowid_max)%Z)
    by (by vm_compute).
  split; [exact Hmax|].
  destruct (save_assigns_fresh_id (mkItem "t2" "d2" "u") _ Hmax)
    as (_ & _ & Hlast & _).
  rewrite Hlast. by vm_compute.
Defined.

Lemma length_filter_absent u (l : list Row) :
  u ∉ row_url <$> l -> filter (fun r => row_url r ≠ u) l = l.
Proof.
  induction l as [|r l IH]; [done|].
  rewrite fmap_cons. intros [Hne Hl]%not_elem_of_cons.
  rewrite filter_cons.
  destruct (decide (row_url r ≠ u)) as [?|Hn]; [|exfalso; apply Hn; congruence].
  by rewrite IH.
Qed.

Lemma length_filter_present u (l : list Row) :
  NoDup (row_url <$> l) -> u ∈ row_url <$> l ->
  S (length (filter (fun r => row_url r ≠ u) l)) = length l.
Proof.
  induction l as [|r l IH]; [by intros _ ?%not_elem_of_nil|].
  rewrite fmap_cons. intros [Hr Hnd]%NoDup_cons Hin.
  rewrite filter_cons. destruct (decide (row_url r ≠ u)) as [Hne|Heq].
  - apply elem_of_cons in Hin as [?|Hin]; [congruence|].
    simpl. by rewrite IH.
  - assert (row_url r = u) as <- by (by destruct (decide (row_url r = u))).
    by rewrite length_filter_absent.
Qed.

(** X9. On a table with at most one row per url, saving an item whose url
    is already stored leaves the number of rows unchanged, and saving an
    item with a new url adds exactly one row. *)
Theorem save_row_count (item : ScrapedItem) (tb : Table) :
  unique_urls tb ->
  length (rows (_save_to_database item tb))
  = if decide (url item ∈ urls_of tb) then length (rows tb)
    else S (length (rows tb)).
Proof.
  unfold unique_urls, urls_of. intros Hu.
  unfold _save_to_database, insert_or_replace. cbn [rows].
  rewrite length_app. simpl. destruct (decide (url item ∈ row_url <$> rows tb)).
  - rewrite <- (length_filter_present (url item) (rows tb)) by done. lia.
  - rewrite length_filter_absent by done. lia.
Qed.

Lemma save_row_count_witness :
  unique_urls empty_table /\
  length (rows (_save_to_database (mkItem "t2" "d2" "u")
                  (_save_to_database (mkItem "t1" "d1" "u") empty_table))) = 1.
Proof.
  assert (Hu : unique_urls empty_table) by apply NoDup_nil_2.
  split; [exact Hu|].
  assert (Hu1 : unique_urls (_save_to_database (mkItem "t1" "d1" "u") empty_table))
    by (by apply insert_or_replace_unique).
  rewrite (save_row_count (mkItem "t2" "d2" "u") _ Hu1). by vm_compute.
Defined.

End StoreIdFacts.

(** ** Which elements the item is taken from *)
Section SoupOrderFacts.
Import Soup SoupSpec SoupOrder.

Lemma head_filter_app {A} (p : A -> bool) (l1 l2 : list A) :
  head (List.filter p (l1 ++ l2)) =
  match head (List.filter p l1) with
  | Some x => Some x
  | None => head (List.filter p l2)
  end.
Proof.
  induction l1 as [|x l1 IH]; [done|].
  simpl. destruct (p x); [done|exact IH].
Qed.

Lemma find_in_first p e :
  find_in p e = head (List.filter (meets p) (descendants e)).
Proof.
  induction e as [s|n a cs IH] using PageElement_tree_ind; [done|].
  cbn [find_in descendants List.filter meets].
  destruct (p n a); [done|].
  induction IH as [|c cs Hc _ IHcs]; [done|].
  rewrite head_filter_app, <- Hc.
  destruct (find_in p c); [done|exact IHcs].
Qed.

Lemma find_first p soup :
  find p soup = head (List.filter (meets p) (document soup)).
Proof.
  induction soup as [|c soup IH]; [done|].
  cbn [find document]. rewrite head_filter_app, <- find_in_first.
  destruct (find_in p c); [done|exact IH].
Qed.

(** X10. The item is taken from the first elements in document order:
    when [extract_data] returns, the title is the stripped text of the
    first [h1] of the document, nested or not (the empty string without
    one), the description is the [content] of the first [meta] tag named
    [description] (the empty string without one), and the url is the url
    given. Later matches are never looked at. *)
Theorem extract_data_first_in_document_order
        (soup : BeautifulSoup) (u : string) (item : ScrapedItem) :
  extract_data soup u = inr item ->
  title item
    = match head (List.filter (meets is_h1) (document soup)) with
      | Some h1 => strip (get_text h1)
      | None => EmptyString
      end /\
  description item
    = match head (List.filter (meets is_meta_description) (document soup)) with
      | Some meta => content_of meta
      | None => EmptyString
      end /\
  url item = u.
Proof.
  unfold extract_data, extract_description, extract_title.
  rewrite !find_first.
  destruct (head (List.filter (meets is_meta_description) (document soup)))
    as [meta|] eqn:Hm.
  - destruct meta as [n a cs|s]; [|done].
    unfold getitem, content_of.
    destruct (a !! "content"%string) as [v|] eqn:Ha; [|done].
    by intros [= <-].
  - by intros [= <-].
Qed.

Lemma extract_data_first_in_document_order_witness :
  let soup :=
    [Tag "div" ∅ [Tag "h1" ∅ [NavigableString " first "]];
     Tag "h1" ∅ [NavigableString "second"]] in
  extract_data soup "u" = inr (mkItem "first" "" "u") /\
  title (mkItem "first" "" "u") = "first"%string.
Proof.
  intros soup.
  assert (Hx : extract_data soup "u" = inr (mkItem "first" "" "u")) by (by vm_compute).
  split; [exact Hx|].
  destruct (extract_data_first_in_document_order soup "u" _ Hx) as (-> & _).
  by vm_compute.
Defined.

(** *** White space around the title *)

Lemma append_cons c a b : (String c a +:+ b)%string = String c (a +:+ b)%string.
Proof. reflexivity. Qed.

Lemma append_nil_r s : (s +:+ EmptyString)%string = s.
Proof. induction s as [|c s IH]; [done|]. by rewrite append_cons, IH. Qed.

Lemma append_assoc a b c : ((a +:+ b) +:+ c)%string = (a +:+ b +:+ c)%string.
Proof. induction a as [|x a IH]; [done|]. by rewrite !append_cons, IH. Qed.

Lemma length_append a b :
  String.length (a +:+ b) = String.length a + String.length b.
Proof. induction a as [|x a IH]; [done|]. rewrite append_cons. simpl. by rewrite IH. Qed.

Lemma without_prefix_spec p s r :
  without_prefix p s = Some r <-> s = (p +:+ r)%string.
Proof.
  revert s. induction p as [|a p IH]; intros s.
  - change (EmptyString +:+ r)%string with r. destruct s; simpl; split; congruence.
  - rewrite append_cons. destruct s as [|b s]; simpl; [split; congruence|].
    destruct (Ascii.eqb_spec a b) as [->|Hab].
    + rewrite IH. split; congruence.
    + split; congruence.
Qed.

Lemma without_suffix_self p : without_suffix p p = Some EmptyString.
Proof. destruct p; simpl; by rewrite ?Ascii.eqb_refl, ?String.eqb_refl. Qed.

Lemma without_suffix_spec p s r :
  without_suffix p s = Some r <-> s = (r +:+ p)%string.
Proof.
  split.
  - revert r. induction s as [|c s IH]; intros r.
    + simpl. destruct p; simpl; [|done]. by intros [= <-].
    + cbn [without_suffix]. destruct (String.eqb_spec (String c s) p) as [->|Hne].
      * by intros [= <-].
      * destruct (without_suffix p s) as [r'|]; [|done].
        intros [= <-]. rewrite append_cons. f_equal. by apply IH.
  - intros ->. induction r as [|c r IH].
    + apply without_suffix_self.
    + rewrite append_cons. cbn [without_suffix].
      destruct (String.eqb_spec (String c (r +:+ p)) p) as [Heq|_].
      * apply (f_equal String.length) in Heq. simpl in Heq.
        rewrite length_append in Heq. lia.
      * by rewrite IH.
Qed.

Lemma first_of_Some f l r :
  first_of f l = Some r -> exists p, p ∈ l /\ f p = Some r.
Proof.
  induction l as [|p l IH]; [done|]. simpl.
  destruct (f p) as [r'|] eqn:Hp.
  - intros [= <-]. exists p. split; [left|done].
  - intros H. destruct (IH H) as (q & Hq & Hfq). exists q. split; [by right|done].
Qed.

Lemma first_of_None f l :
  first_of f l = None <-> forall p, p ∈ l -> f p = None.
Proof.
  induction l as [|p l IH]; simpl.
  - split; [|done]. intros _ p Hp. by apply elem_of_nil in Hp.
  - destruct (f p) as [r'|] eqn:Hp.
    + split; [done|]. intros H. specialize (H p (list_elem_of_here _ _)). congruence.
    + rewrite IH. split.
      * intros H q Hq. apply elem_of_cons in Hq as [->|Hq]; auto.
      * intros H q Hq. apply H. by right.
Qed.

Lemma spaces_non_empty p : p ∈ spaces -> 0 < String.length p.
Proof.
  revert p. apply Forall_forall. unfold spaces, whitespace.
  rewrite !fmap_cons. repeat constructor.
Qed.

Lemma after_space_None s : after_space s = None <-> ~ begins_with_space s.
Proof.
  unfold after_space, begins_with_space. rewrite first_of_None. split.
  - intros H (p & r & Hp & ->). specialize (H p Hp).
    by rewrite (proj2 (without_prefix_spec p _ r) eq_refl) in H.
  - intros H p Hp. destruct (without_prefix p s) as [r|] eqn:Hr; [|done].
    exfalso. apply H. exists p, r. split; [done|]. by apply without_prefix_spec.
Qed.

Lemma before_space_None s : before_space s = None <-> ~ ends_with_space s.
Proof.
  unfold before_space, ends_with_space. rewrite first_of_None. split.
  - intros H (p & r & Hp & ->). specialize (H p Hp).
    by rewrite (proj2 (without_suffix_spec p _ r) eq_refl) in H.
  - intros H p Hp. destruct (without_suffix p s) as [r|] eqn:Hr; [|done].
    exfalso. apply H. exists p, r. split; [done|]. by apply without_suffix_spec.
Qed.

Lemma white_app a b : white a -> white b -> white (a +:+ b).
Proof.
  induction 1 as [|p s Hp Hs IH]; [done|]. intros Hb.
  rewrite append_assoc. constructor; auto.
Qed.

Lemma white_one p : p ∈ spaces -> white p.
Proof.
  intros Hp. rewrite <- (append_nil_r p). constructor; [done|constructor].
Qed.

Lemma lstrip_upto_split n s :
  String.length s <= n ->
  exists pre, s = (pre +:+ lstrip_upto n s)%string /\ white pre /\
              ~ begins_with_space (lstrip_upto n s).
Proof.
  revert s. induction n as [|n IH]; intros s Hn.
  - destruct s; [|simpl in Hn; lia]. exists EmptyString. split; [done|].
    split; [constructor|]. by apply after_space_None.
  - simpl. destruct (after_space s) as [r|] eqn:Hs.
    + apply first_of_Some in Hs as (p & Hp & Hr).
      apply without_prefix_spec in Hr. subst s.
      pose proof (spaces_non_empty p Hp). rewrite length_append in Hn.
      destruct (IH r) as (pre & Hr & Hpre & Hno); [lia|].
      exists (p +:+ pre)%string. split; [by rewrite append_assoc, <- Hr|].
      split; [by constructor|done].
    + exists EmptyString. split; [done|]. split; [constructor|].
      by apply after_space_None.
Qed.

Lemma rstrip_upto_split n s :
  String.length s <= n ->
  exists post, s = (rstrip_upto n s +:+ post)%string /\ white post /\
               ~ ends_with_space (rstrip_upto n s).
Proof.
  revert s. induction n as [|n IH]; intros s Hn.
  - destruct s; [|simpl in Hn; lia]. exists EmptyString. split; [done|].
    split; [constructor|]. by apply before_space_None.
  - simpl. destruct (before_space s) as [r|] eqn:Hs.
    + apply first_of_Some in Hs as (p & Hp & Hr).
      apply without_suffix_spec in Hr. subst s.
      pose proof (spaces_non_empty p Hp). rewrite length_append in Hn.
      destruct (IH r) as (post & Hr & Hpost & Hno); [lia|].
      exists (post +:+ p)%string. split; [by rewrite <- append_assoc, <- Hr|].
      split; [|done]. apply white_app; [done|by apply white_one].
    + exists EmptyString. split; [by rewrite append_nil_r|]. split; [constructor|].
      by apply before_space_None.
Qed.

Lemma lstrip_upto_id n s : ~ begins_with_space s -> lstrip_upto n s = s.
Proof.
  intros H. apply after_space_None in H. destruct n; [done|]. simpl. by rewrite H.
Qed.

Lemma rstrip_upto_id n s : ~ ends_with_space s -> rstrip_upto n s = s.
Proof.
  intros H. apply before_space_None in H. destruct n; [done|]. simpl. by rewrite H.
Qed.

Lemma strip_spec s :
  (exists pre post, s = (pre +:+ strip s +:+ post)%string /\ white pre /\ white post) /\
  ~ begins_with_space (strip s) /\
  ~ ends_with_space (strip s).
Proof.
  unfold strip, lstrip, rstrip.
  destruct (lstrip_upto_split (String.length s) s) as (pre & Hs & Hpre & Hfirst); [done|].
  set (m := lstrip_upto (String.length s) s) in *.
  destruct (rstrip_upto_split (String.length m) m) as (post & Hm & Hpost & Hlast); [done|].
  split; [|split].
  - exists pre, post. split; [|done]. by rewrite <- Hm.
  - intros (p & r & Hp & Hr). apply Hfirst. exists p, (r +:+ post)%string.
    split; [done|]. by rewrite Hm, Hr, append_assoc.
  - done.
Qed.

Lemma empty_no_space :
  ~ begins_with_space EmptyString /\ ~ ends_with_space EmptyString.
Proof.
  split; intros (p & r & Hp & Heq); apply spaces_non_empty in Hp;
    apply (f_equal String.length) in Heq; rewrite length_append in Heq;
    simpl in Heq; lia.
Qed.

(** X11. The title neither begins nor ends with a white-space character
    (of Unicode, as [str.strip()] has it), stripping it again changes
    nothing, and it is the text of the first [h1] with nothing but
    white-space characters removed at its two ends. *)
Theorem title_is_stripped (soup : BeautifulSoup) :
  ~ begins_with_space (extract_title soup) /\
  ~ ends_with_space (extract_title soup) /\
  strip (extract_title soup) = extract_title soup /\
  (forall h1, find is_h1 soup = Some h1 ->
     exists pre post,
       get_text h1 = (pre +:+ extract_title soup +:+ post)%string /\
       white pre /\ white post).
Proof.
  unfold extract_title. destruct (find is_h1 soup) as [h|].
  - destruct (strip_spec (get_text h)) as (Hsplit & Hfirst & Hlast).
    split; [done|]. split; [done|]. split.
    + unfold strip at 1, lstrip, rstrip.
      rewrite lstrip_upto_id by done. by apply rstrip_upto_id.
    + by intros ? [= <-].
  - destruct empty_no_space as [Hb He]. by repeat split.
Qed.

End SoupOrderFacts.

(** ** The script as a whole *)
Section MainFacts.
Import Csv CsvStream.

Lemma parse_csv_export (data : list ScrapedItem) :
  parse_csv (export_to_csv data) = Some (item_tuple <$> data).
Proof.
  unfold parse_csv. rewrite reader_file, export_rows, file_read.
  cbn [List.map DictReader].
  induction data as [|item data IH]; [done|].
  rewrite fmap_cons. cbn [List.map List.filter].
  unfold item_row at 1. cbn [List.map]. fold (item_row item).
  rewrite fmap_cons. cbn [mapM].
  change (List.map string_of_list_ascii (list_ascii_of_string <$> fieldnames))
    with fieldnames in *.
  rewrite tuple_of_row. cbn [mbind option_bind].
  rewrite IH. done.
Qed.

(** X12. When [main] runs to its end it has at most five results, all
    under page urls of [https://example.com]; each of them can be read
    from the database under its url, the csv file written is the export
    of the results and parses back to exactly their tuples, and every
    call of [session.get] was for one of the five page urls. *)
Theorem main_completed (E : Env) (sched : list Event)
        (results : list ScrapedItem) (w : World) (csv : list ascii) :
  main E sched = Some (Completed results w csv) ->
  length results <= 5 /\
  (forall item, item ∈ results ->
     url item ∈ page_urls main_base_url 5 /\
     Store.select_by_url (url item) (database w)
     = [(title item, description item)]) /\
  parse_csv csv = Some (item_tuple <$> results) /\
  (forall u, u ∈ requests w -> u ∈ page_urls main_base_url 5).
Proof.
  unfold main, __init__.
  destruct (Robots.read (grammar E) (robots_txt E) Robots.new) as [e|p]; [done|].
  set (scraper := mkScraper main_base_url p).
  set (w0 := mkWorld [] [] (Store._setup_database (db_file E))).
  destruct (async_scrape E scraper sched 5 w0) as [[[e|items] w']|] eqn:Hrun;
    [done| |done].
  intros [= <- <- <-].
  destruct (async_scrape_items _ _ _ _ _ _ _ Hrun) as (Hurls & Hdb & _).
  change (base_url scraper) with main_base_url in Hurls.
  split; [|split; [|split]].
  - rewrite <- (length_fmap url), Hurls.
    pose proof (List.filter_length_le (scraped E scraper)
                  (page_urls main_base_url 5)) as Hle.
    by rewrite length_page_urls in Hle.
  - intros item Hin. split.
    + assert (url item ∈ url <$> items) as Hu by (by apply list_elem_of_fmap_2).
      rewrite Hurls in Hu. apply list_elem_of_In, List.filter_In in Hu as [Hu _].
      by apply list_elem_of_In.
    + rewrite Hdb. apply select_save_all_in; [|done].
      rewrite Hurls. apply NoDup_scraped_urls.
  - apply parse_csv_export.
  - intros u Hu. unfold async_scrape in Hrun.
    destruct (gather E scraper _ sched w0) as [[pages w1]|] eqn:Hg; [|done].
    injection Hrun as Hp.
    destruct (gather_world _ _ _ _ _ _ _ Hg) as (_ & Hreq & _).
    destruct (process_pages_effects _ _ _ _ _ _ Hp) as [Hrq _].
    rewrite Hrq in Hu. destruct (Hreq _ Hu) as [Hnil|[Hin _]]; [|done].
    by apply elem_of_nil in Hnil.
Qed.

(** The run of the example: pages 1 and 2 give the two results. *)
Lemma main_completed_witness :
  exists results w csv,
    main example_env example_schedule = Some (Completed results w csv) /\
    url <$> results = ["https://example.com/page/1"; "https://example.com/page/2"]%string /\
    parse_csv csv = Some (item_tuple <$> results).
Proof.
  destruct (main example_env example_schedule) as [[e|e w|results w csv]|] eqn:Hm;
    [by vm_compute in Hm|by vm_compute in Hm| |by vm_compute in Hm].
  exists results, w, csv. split; [done|].
  destruct (main_completed _ _ _ _ _ Hm) as (_ & _ & Hcsv & _).
  split; [|exact Hcsv].
  vm_compute in Hm. by injection Hm as <- _ _.
Defined.

End MainFacts.

(** ** The json export *)
Section JsonFacts.
Import Json JsonRead.

Lemma unescape_escape c rest :
  unescape_char (escape_char c ++ rest) = Some (c, rest).
Proof. destruct c as [[] [] [] [] [] [] [] []]; reflexivity. Qed.

Lemma unescape_quote rest : unescape_char (quote :: rest) = None.
Proof. reflexivity. Qed.

(** The body of a string literal ends at the first quote that is not
    escaped: two literals followed by anything are equal only for equal
    strings. *)
Lemma body_prefix_free s1 : forall s2 r1 r2,
  flat_map escape_char s1 ++ quote :: r1 = flat_map escape_char s2 ++ quote :: r2 ->
  s1 = s2 /\ r1 = r2.
Proof.
  induction s1 as [|c1 s1 IH]; intros [|c2 s2] r1 r2; cbn [flat_map app].
  - by intros [= ->].
  - rewrite <- app_assoc. intros H. apply (f_equal unescape_char) in H.
    by rewrite unescape_quote, unescape_escape in H.
  - rewrite <- app_assoc. intros H. apply (f_equal unescape_char) in H.
    by rewrite unescape_quote, unescape_escape in H.
  - rewrite <- !app_assoc. intros H. pose proof (f_equal unescape_char H) as Hu.
    rewrite !unescape_escape in Hu. injection Hu as -> Hrest.
    destruct (IH _ _ _ Hrest) as [-> ->]. done.
Qed.

Lemma encode_prefix_free s1 s2 r1 r2 :
  encode_basestring s1 ++ r1 = encode_basestring s2 ++ r2 -> s1 = s2 /\ r1 = r2.
Proof.
  unfold encode_basestring. rewrite <- !app_comm_cons, <- !app_assoc.
  intros [= H]. cbn [app] in H.
  destruct (body_prefix_free _ _ _ _ H) as [Hs Hr]. split; [|done].
  rewrite <- (string_of_list_ascii_of_string s1), Hs.
  apply string_of_list_ascii_of_string.
Qed.

Lemma iterencode_item item :
  iterencode_dict 1 (asdict item) =
  before_title ++ encode_basestring (title item) ++
  before_description ++ encode_basestring (description item) ++
  before_url ++ encode_basestring (url item) ++ after_url.
Proof.
  unfold iterencode_dict, asdict, before_title, before_description, before_url,
    after_url.
  cbn [fmap list_fmap join fst snd]. by rewrite <- !app_assoc.
Qed.

Lemma item_prefix_free i1 i2 r1 r2 :
  iterencode_dict 1 (asdict i1) ++ r1 = iterencode_dict 1 (asdict i2) ++ r2 ->
  i1 = i2 /\ r1 = r2.
Proof.
  rewrite !iterencode_item, <- !app_assoc. intros H.
  apply app_inv_head in H. apply encode_prefix_free in H as [Ht H].
  apply app_inv_head in H. apply encode_prefix_free in H as [Hd H].
  apply app_inv_head in H. apply encode_prefix_free in H as [Hu H].
  apply app_inv_head in H.
  destruct i1, i2. simpl in *. by subst.
Qed.

Lemma items_prefix_free l1 : forall l2 tail1 tail2,
  l1 <> [] -> l2 <> [] ->
  join (","%char :: newline_indent 1) (iterencode_dict 1 <$> (asdict <$> l1))
    ++ LF :: tail1
  = join (","%char :: newline_indent 1) (iterencode_dict 1 <$> (asdict <$> l2))
    ++ LF :: tail2 ->
  l1 = l2.
Proof.
  induction l1 as [|i1 l1 IH]; intros l2 tail1 tail2 Hn1 Hn2; [done|].
  destruct l2 as [|i2 l2]; [done|].
  rewrite !fmap_cons.
  destruct l1 as [|j1 l1], l2 as [|j2 l2].
  - cbn [fmap list_fmap join]. intros H.
    by apply item_prefix_free in H as [-> _].
  - rewrite !fmap_cons. cbn [fmap list_fmap join]. rewrite <- !app_assoc. intros H.
    by apply item_prefix_free in H as [_ H].
  - rewrite !fmap_cons. cbn [fmap list_fmap join]. rewrite <- !app_assoc. intros H.
    by apply item_prefix_free in H as [_ H].
  - rewrite !(fmap_cons asdict), !(fmap_cons (iterencode_dict 1)).
    cbn [join]. rewrite <- !app_assoc. intros H.
    apply item_prefix_free in H as [-> H].
    apply app_inv_head in H.
    f_equal. apply (IH (j2 :: l2) tail1 tail2); [done|done|exact H].
Qed.

(** X13. The json export loses nothing: two lists of items give the same
    file exactly when they are the same list. Every title, description
    and url, with any quotes, backslashes, line breaks or control
    characters in it, can be told from the text written. *)
Theorem export_to_json_injective (d1 d2 : list ScrapedItem) :
  export_to_json d1 = export_to_json d2 <-> d1 = d2.
Proof.
  split; [|by intros ->].
  unfold export_to_json, iterencode_list.
  destruct d1 as [|i1 d1], d2 as [|i2 d2]; [done| | |].
  - rewrite fmap_cons. by intros [= ?].
  - rewrite fmap_cons. by intros [= ?].
  - rewrite !fmap_cons. cbv beta iota. intros H.
    apply (app_inv_head ["["%char]) in H.
    apply (app_inv_head (newline_indent 1)) in H.
    apply (items_prefix_free (i1 :: d1) (i2 :: d2) ["]"%char] ["]"%char]);
      [done|done|exact H].
Qed.

End JsonFacts.

(** ** Edge cases of the run *)
Section EdgeFacts.
Variable E : Env.

(** The loop over two stretches of pages is the loop over the first
    followed, unless it raised, by the loop over the second. *)
Lemma process_pages_app z1 z2 : forall all w,
  process_pages E (z1 ++ z2) all w =
  match process_pages E z1 all w with
  | (inr items, w1) => process_pages E z2 items w1
  | (inl e, w1) => (inl e, w1)
  end.
Proof.
  induction z1 as [|[u html] z1 IH]; intros all w; [done|].
  rewrite <- app_comm_cons. destruct (truthy html) eqn:Ht.
  - destruct html as [body|]; [|done].
    rewrite !process_pages_keep by done.
    destruct (Soup.extract_data (parse_page E body) u); [done|]. apply IH.
  - rewrite !process_pages_skip by done. apply IH.
Qed.

(** X14. When the extraction of a page raises, the loop stops there: the
    exception leaves with the rows of all earlier pages saved and nothing
    of the later pages extracted or saved. *)
Theorem exception_keeps_earlier_rows
        (z1 z2 : list (string * option string)) (u body : string) (e : Exn)
        (all items : list ScrapedItem) (w w1 : World) :
  process_pages E z1 all w = (inr items, w1) ->
  body <> EmptyString ->
  Soup.extract_data (parse_page E body) u = inl e ->
  process_pages E (z1 ++ (u, Some body) :: z2) all w = (inl e, w1) /\
  exists saved, items = all ++ saved /\
                database w1 = save_all (database w) saved.
Proof.
  intros H1 Hbody Hx. split.
  - rewrite process_pages_app, H1.
    rewrite process_pages_keep by (by destruct body). by rewrite Hx.
  - destruct (process_pages_returns _ _ _ _ _ _ H1) as (saved & -> & _ & Hdb & _).
    eauto.
Qed.

(** X15. With [max_pages] zero or negative there is no page: the run
    returns the empty list at once and sends, logs and writes nothing. *)
Theorem no_pages_nothing_done
        (self : WebScraper) (max_pages : Z) (w : World) :
  (max_pages <= 0)%Z ->
  page_urls (base_url self) max_pages = [] /\
  async_scrape E self [] max_pages w = Some (inr [], w) /\
  forall sched res w',
    async_scrape E self sched max_pages w = Some (res, w') ->
    sched = [] /\ res = inr [] /\ w' = w.
Proof.
  intros Hmax.
  assert (Hurls : page_urls (base_url self) max_pages = []).
  { unfold page_urls, page_range. by replace (Z.to_nat max_pages) with 0 by lia. }
  split; [done|]. unfold async_scrape. rewrite Hurls. split; [done|].
  intros sched res w'. unfold gather. destruct sched as [|ev sched].
  - simpl. by intros [= <- <-].
  - simpl. by destruct ev.
Qed.

End EdgeFacts.

Section EdgeInstances.

(** Three pages, the second of which cannot be extracted: the row of the
    first is in the database, nothing of the third is. *)
Lemma exception_keeps_earlier_rows_witness :
  process_pages broken_env
    [("https://example.com/page/1"%string, Some "one"%string);
     ("https://example.com/page/2"%string, Some "bad"%string);
     ("https://example.com/page/3"%string, Some "three"%string)] [] example_world
  = (inl (KeyError "content"),
     save (mkItem "one" "" "https://example.com/page/1") example_world) /\
  Store.rows (database (save (mkItem "one" "" "https://example.com/page/1")
                          example_world))
  = [Store.mkRow 1 "one" "" "https://example.com/page/1"].
Proof.
  split; [|reflexivity].
  refine (proj1 (exception_keeps_earlier_rows broken_env
                   [("https://example.com/page/1"%string, Some "one"%string)]
                   [("https://example.com/page/3"%string, Some "three"%string)]
                   "https://example.com/page/2" "bad" (KeyError "content") []
                   [mkItem "one" "" "https://example.com/page/1"]
                   example_world
                   (save (mkItem "one" "" "https://example.com/page/1") example_world)
                   _ _ _)).
  - reflexivity.
  - discriminate.
  - by vm_compute.
Defined.

Lemma no_pages_nothing_done_witness :
  (-2 <= 0)%Z /\
  async_scrape example_env example_scraper [] (-2) example_world
  = Some (inr [], example_world).
Proof.
  split; [lia|].
  refine (proj1 (proj2 (no_pages_nothing_done example_env example_scraper
                          (-2) example_world _))).
  lia.
Defined.

End EdgeInstances.

(** ** Rows that need no quoting *)
Section CsvPlainFacts.
Import Csv CsvStream.

Lemma join_append_data_of_plain (s : list ascii) :
  forallb (fun c => negb (special c)) s = true ->
  join_append_data s = (false, s).
Proof.
  induction s as [|c s IH]; [done|].
  cbn [forallb join_append_data]. intros [Hc Hs]%andb_prop.
  rewrite (IH Hs). by destruct (special c).
Qed.

Lemma join_append_data_quoted (s : list ascii) :
  (join_append_data s).1 = true <-> exists c, c ∈ s /\ special c = true.
Proof.
  induction s as [|c s IH].
  - split; [done|]. by intros (c & ?%not_elem_of_nil & _).
  - cbn [join_append_data]. destruct (join_append_data s) as [q out].
    destruct (special c) eqn:Hc; simpl.
    + split; [|done]. intros _. exists c. split; [left|done].
    + simpl in IH. rewrite IH. split.
      * intros (c' & Hin & Hs). exists c'. split; [by right|done].
      * intros (c' & [->|Hin]%elem_of_cons & Hs); [congruence|eauto].
Qed.

Lemma length_join_append_data (s : list ascii) :
  length s <= length (join_append_data s).2.
Proof.
  induction s as [|c s IH]; [done|].
  cbn [join_append_data]. destruct (join_append_data s) as [q out].
  simpl in IH. destruct (special c), (Ascii.eqb c quotechar); simpl; lia.
Qed.

(** X16. A field is quoted exactly when it contains a comma, a quote, a
    carriage return or a line feed. A file of items whose fields contain
    none of them is the header line followed by one line
    [title,description,url] per item, the fields written as they are. *)
Theorem plain_items_written_verbatim (data : list ScrapedItem) :
  (forall s, field_text s = s <-> forallb (fun c => negb (special c)) s = true) /\
  (Forall (fun item => plain (title item) && plain (description item)
                       && plain (url item) = true) data ->
   export_to_csv data =
   (list_ascii_of_string "title,description,url" ++ lineterminator) ++
   concat (verbatim_row <$> data)).
Proof.
  split.
  - intros s. unfold field_text. split.
    + destruct (join_append_data s) as [q out] eqn:Hj. destruct q.
      * intros Hlen. apply (f_equal length) in Hlen. simpl in Hlen.
        rewrite length_app in Hlen. simpl in Hlen.
        pose proof (length_join_append_data s) as Hle. rewrite Hj in Hle.
        simpl in Hle.
        lia.
      * intros _. destruct (join_append_data_plain s) as [Hall _];
          [by rewrite Hj|].
        apply forallb_forall. intros c Hc.
        rewrite Forall_forall in Hall. apply list_elem_of_In in Hc.
        by rewrite (Hall _ Hc).
    + intros Hp. by rewrite join_append_data_of_plain.
  - intros Hall. unfold export_to_csv. f_equal. f_equal.
    induction Hall as [|item data Hitem _ IH]; [done|].
    rewrite !fmap_cons. f_equal; [|exact IH].
    rewrite dict_to_list_asdict.
    apply andb_prop in Hitem as [[Ht Hd]%andb_prop Hu].
    unfold writerow, item_row, verbatim_row, plain in *.
    cbn [join_fields]. unfold join_append.
    rewrite !join_append_data_of_plain by done. cbn [Nat.eqb app].
    rewrite app_nil_r.
    destruct (list_ascii_of_string (title item)) as [|c t]; cbn [app];
      repeat (rewrite <- app_assoc || rewrite <- app_comm_cons); done.
Qed.

Lemma plain_items_written_verbatim_witness :
  Forall (fun item => plain (title item) && plain (description item)
                      && plain (url item) = true)
         [mkItem "News" "All the news" "https://example.com/page/1"] /\
  length (export_to_csv [mkItem "News" "All the news" "https://example.com/page/1"])
  = 69.
Proof.
  assert (Hp : Forall (fun item => plain (title item) && plain (description item)
                                   && plain (url item) = true)
                 [mkItem "News" "All the news" "https://example.com/page/1"])
    by (by repeat constructor).
  split; [exact Hp|].
  rewrite (proj2 (plain_items_written_verbatim _) Hp). by vm_compute.
Defined.

End CsvPlainFacts.
